(** * agent-sdk-go, ui-nextjs client runtime

    A shallow embedding of the client-side core of the Next.js UI:

    - [Sse]: the server-sent-event decode loop of [AgentAPI.streamAgent]
      (lib/api.ts);
    - [Trace]: [buildSpanHierarchy] of the trace detail viewer;
    - [Pagination], [TracesScreen], [MemoryScreen]: the limit/offset/total
      arithmetic of the conversation detail and the memory screen, and the
      page handlers and buttons of the traces screen and the memory screen;
    - [Memory]: the consumers of the memory list response
      ([loadMemory], [loadMore], [loadConversations], [loadMessages]);
    - [SseText]: the decoder seen from the whole text of a stream;
    - [TraceView]: [toggleSpanExpansion] and [renderSpanTree] of the trace
      detail viewer;
    - [TracesView], [MemoryView], [ConversationDetail], [MemoryBrowser]:
      the range the traces screen shows, clicks on the page buttons with
      the effects that load again, the pagination bar of the conversation
      detail, Load More in the memory browser, and
      [getCleanConversationId].

    JavaScript numbers that hold counts and offsets are modelled as [Z]
    (all values stay far inside the safe-integer range, where [+], [-],
    [Math.floor (a / b)] and [Math.ceil (a / b)] are exact).  JavaScript
    strings are modelled as [string], one character per code unit. *)

From Stdlib Require Import ZArith Ascii String List Lia Bool.
From stdpp Require Import base option list strings gmap relations.

#[local] Set Warnings "-register-all,-clear-no-such-hyp".
Local Open Scope string_scope.
Local Open Scope list_scope.

(** ** JavaScript string and array primitives used by the sources *)

Module Js.

(** [s.split(sep)] for a one-character separator: the pieces between the
    separators, never an empty array. *)
Fixpoint split_aux (sep : ascii) (s : string) : string * list string :=
  match s with
  | EmptyString => (EmptyString, [])
  | String c r =>
      let '(h, t) := split_aux sep r in
      if Ascii.eqb c sep then (EmptyString, h :: t) else (String c h, t)
  end.

Definition split (sep : ascii) (s : string) : list string :=
  let '(h, t) := split_aux sep s in h :: t.

(** [a.pop()]: the last element ([undefined] on an empty array) and the
    array that is left. *)
Definition pop {A} (a : list A) : option A * list A :=
  (last a, removelast a).

(** [x || d] on an optional string: [undefined] and the empty string are
    falsy. *)
Definition or_else (x : option string) (d : string) : string :=
  match x with
  | Some s => if String.eqb s "" then d else s
  | None => d
  end.

(** [s.startsWith(p)] *)
Fixpoint startsWith (s p : string) {struct p} : bool :=
  match p with
  | EmptyString => true
  | String a p' =>
      match s with
      | EmptyString => false
      | String b s' => Ascii.eqb a b && startsWith s' p'
      end
  end.

(** [s.slice(n)] for [n >= 0] *)
Fixpoint slice (n : nat) (s : string) : string :=
  match n, s with
  | O, _ => s
  | S k, String _ r => slice k r
  | S _, EmptyString => EmptyString
  end.

Definition LF : ascii := "010"%char.

#[global] Arguments slice : simpl never.
#[global] Arguments startsWith : simpl never.

End Js.

(** ** [JSON.parse] and truthiness

    [JSON.parse] is a builtin of the JavaScript runtime.  The decoder is
    developed over an arbitrary parser (section [Decoder] below); this module
    gives the reference instance, a parser for the JSON grammar of ECMA-404,
    used to run the decoder on concrete streams. *)

Module Json.

(** A number literal [(-1)^neg * mant * 10^exp10]. *)
Record number := { neg : bool; mant : N; exp10 : Z }.

Inductive value :=
| Null
| Bool (b : bool)
| Number (n : number)
| Str (units : list N)
| Array (items : list value)
| Object (members : list (list N * value)).

(** The double nearest to the literal is [0] when the mantissa is [0] or the
    value is at most [2^-1075] (half the least subnormal). *)
Definition is_zero (n : number) : bool :=
  (mant n =? 0)%N
  || ((exp10 n <? 0)%Z
      && (Z.of_N (mant n) * 2 ^ 1075 <=? 10 ^ (- exp10 n))%Z).

(** [ToBoolean] on a parsed value. *)
Definition truthy (v : value) : bool :=
  match v with
  | Null => false
  | Bool b => b
  | Number n => negb (is_zero n)
  | Str u => negb (Nat.eqb (length u) 0)
  | Array _ | Object _ => true
  end.

Definition is_ws (c : ascii) : bool :=
  let n := nat_of_ascii c in
  Nat.eqb n 32 || Nat.eqb n 9 || Nat.eqb n 10 || Nat.eqb n 13.

Fixpoint skip_ws (s : list ascii) : list ascii :=
  match s with
  | c :: r => if is_ws c then skip_ws r else s
  | [] => []
  end.

Definition digit (c : ascii) : option N :=
  let n := N_of_ascii c in
  if ((48 <=? n) && (n <=? 57))%N then Some (n - 48)%N else None.

Definition hex (c : ascii) : option N :=
  let n := N_of_ascii c in
  if ((48 <=? n) && (n <=? 57))%N then Some (n - 48)%N
  else if ((65 <=? n) && (n <=? 70))%N then Some (n - 55)%N
  else if ((97 <=? n) && (n <=? 102))%N then Some (n - 87)%N
  else None.

(** A maximal run of digits: its value continued from [acc], how many
    digits it has, and the rest. *)
Fixpoint digits (s : list ascii) (acc : N) (cnt : nat) : N * nat * list ascii :=
  match s with
  | c :: r =>
      match digit c with
      | Some d => digits r (acc * 10 + d)%N (S cnt)
      | None => (acc, cnt, s)
      end
  | [] => (acc, cnt, [])
  end.

Definition is_char (c : ascii) (n : N) : bool := (N_of_ascii c =? n)%N.

(** number = [-] int [frac] [exp] *)
Definition parse_number (s : list ascii) : option (number * list ascii) :=
  let '(sg, s1) :=
    match s with
    | c :: r => if is_char c 45 then (true, r) else (false, s)
    | [] => (false, s)
    end in
  let '(ip, ni, s2) := digits s1 0%N 0 in
  let leading_zero :=
    match s1 with c :: _ => is_char c 48 | [] => false end in
  if Nat.eqb ni 0 || (leading_zero && negb (Nat.eqb ni 1)) then None
  else
    let frac :=
      match s2 with
      | c :: r =>
          if is_char c 46 then
            let '(m, nf, s3) := digits r ip 0 in
            if Nat.eqb nf 0 then None else Some (m, nf, s3)
          else Some (ip, 0, s2)
      | [] => Some (ip, 0, s2)
      end in
    match frac with
    | None => None
    | Some (m, nf, s3) =>
        let finish (e : Z) (rest : list ascii) :=
          Some ({| neg := sg; mant := m; exp10 := e - Z.of_nat nf |}, rest) in
        match s3 with
        | c :: r =>
            if is_char c 101 || is_char c 69 then
              let '(esg, r1) :=
                match r with
                | d :: r' =>
                    if is_char d 45 then (true, r')
                    else if is_char d 43 then (false, r')
                    else (false, r)
                | [] => (false, r)
                end in
              let '(e, ne, s4) := digits r1 0%N 0 in
              if Nat.eqb ne 0 then None
              else finish (if esg then - Z.of_N e else Z.of_N e)%Z s4
            else finish 0%Z s3
        | [] => finish 0%Z s3
        end
    end.

(** The characters of a string literal after its opening quote. *)
Fixpoint parse_chars (fuel : nat) (s : list ascii) (acc : list N)
  : option (list N * list ascii) :=
  match fuel with
  | O => None
  | S fuel =>
      match s with
      | [] => None
      | c :: r =>
          if is_char c 34 then Some (rev acc, r)
          else if is_char c 92 then
            match r with
            | e :: r' =>
                if is_char e 34 then parse_chars fuel r' (34%N :: acc)
                else if is_char e 92 then parse_chars fuel r' (92%N :: acc)
                else if is_char e 47 then parse_chars fuel r' (47%N :: acc)
                else if is_char e 98 then parse_chars fuel r' (8%N :: acc)
                else if is_char e 102 then parse_chars fuel r' (12%N :: acc)
                else if is_char e 110 then parse_chars fuel r' (10%N :: acc)
                else if is_char e 114 then parse_chars fuel r' (13%N :: acc)
                else if is_char e 116 then parse_chars fuel r' (9%N :: acc)
                else if is_char e 117 then
                  match r' with
                  | a :: b :: c' :: d :: r'' =>
                      match hex a, hex b, hex c', hex d with
                      | Some a, Some b, Some c', Some d =>
                          parse_chars fuel r''
                            (((a * 16 + b) * 16 + c') * 16 + d :: acc)%N
                      | _, _, _, _ => None
                      end
                  | _ => None
                  end
                else None
            | [] => None
            end
          else if (N_of_ascii c <? 32)%N then None
          else parse_chars fuel r (N_of_ascii c :: acc)
      end
  end.

Fixpoint strip (p s : list ascii) : option (list ascii) :=
  match p, s with
  | [], _ => Some s
  | a :: p', b :: s' => if Ascii.eqb a b then strip p' s' else None
  | _ :: _, [] => None
  end.

Definition lit (w : string) (v : value) (s : list ascii)
  : option (value * list ascii) :=
  match strip (list_ascii_of_string w) s with
  | Some r => Some (v, r)
  | None => None
  end.

Fixpoint parse_value (fuel : nat) (s : list ascii) {struct fuel}
  : option (value * list ascii) :=
  match fuel with
  | O => None
  | S fuel =>
      match skip_ws s with
      | [] => None
      | c :: r =>
          if is_char c 110 then lit "null" Null (c :: r)
          else if is_char c 116 then lit "true" (Bool true) (c :: r)
          else if is_char c 102 then lit "false" (Bool false) (c :: r)
          else if is_char c 34 then
            match parse_chars (S (length r)) r [] with
            | Some (u, r') => Some (Str u, r')
            | None => None
            end
          else if is_char c 91 then
            match skip_ws r with
            | c' :: r' =>
                if is_char c' 93 then Some (Array [], r')
                else
                  match parse_elements fuel r [] with
                  | Some (vs, r'') => Some (Array vs, r'')
                  | None => None
                  end
            | [] => None
            end
          else if is_char c 123 then
            match skip_ws r with
            | c' :: r' =>
                if is_char c' 125 then Some (Object [], r')
                else
                  match parse_members fuel r [] with
                  | Some (ms, r'') => Some (Object ms, r'')
                  | None => None
                  end
            | [] => None
            end
          else
            match parse_number (c :: r) with
            | Some (n, r') => Some (Number n, r')
            | None => None
            end
      end
  end
with parse_elements (fuel : nat) (s : list ascii) (acc : list value)
       {struct fuel} : option (list value * list ascii) :=
  match fuel with
  | O => None
  | S fuel =>
      match parse_value fuel s with
      | Some (v, r) =>
          match skip_ws r with
          | c :: r' =>
              if is_char c 44 then parse_elements fuel r' (v :: acc)
              else if is_char c 93 then Some (rev (v :: acc), r')
              else None
          | [] => None
          end
      | None => None
      end
  end
with parse_members (fuel : nat) (s : list ascii)
       (acc : list (list N * value)) {struct fuel}
       : option (list (list N * value) * list ascii) :=
  match fuel with
  | O => None
  | S fuel =>
      match skip_ws s with
      | q :: r0 =>
          if is_char q 34 then
            match parse_chars (S (length r0)) r0 [] with
            | Some (k, r1) =>
                match skip_ws r1 with
                | c :: r2 =>
                    if is_char c 58 then
                      match parse_value fuel r2 with
                      | Some (v, r3) =>
                          match skip_ws r3 with
                          | d :: r4 =>
                              if is_char d 44
                              then parse_members fuel r4 ((k, v) :: acc)
                              else if is_char d 125
                              then Some (rev ((k, v) :: acc), r4)
                              else None
                          | [] => None
                          end
                      | None => None
                      end
                    else None
                | [] => None
                end
            | None => None
            end
          else None
      | [] => None
      end
  end.

(** [JSON.parse(text)]: one value, surrounded by optional white space;
    [None] stands for the [SyntaxError] it throws. *)
Definition parse (text : string) : option value :=
  let s := list_ascii_of_string text in
  match parse_value (2 * length s + 2) s with
  | Some (v, r) => match skip_ws r with [] => Some v | _ :: _ => None end
  | None => None
  end.

End Json.

(** ** The stream decoder: [AgentAPI.streamAgent] (lib/api.ts)

    The model starts where the [try] block starts, with a reader at hand,
    and takes the chunks the reader delivers as a list; a [read()] that
    rejects is outside the model. *)

Module Sse.

Section Decoder.

(** The parsed payload type, [JSON.parse] ([None] when it throws) and
    JavaScript truthiness of a parsed payload. *)
Context {V : Type}.
Variable JSON_parse : string → option V.
Variable truthy : V → bool.

(** [Partial<StreamResponse>] *)
Record StreamResponse := mkStreamResponse {
  event : option string;
  data : option V;
  id : option string;
}.

(** [{}] *)
Definition empty : StreamResponse :=
  {| event := None; data := None; id := None |}.

(** What the generator does that an observer can see: a [yield] to the
    consumer, or a [console.warn] about an unparsable payload. *)
Inductive Effect :=
| Yield (v : V)
| Warn (dataStr : string).

Definition yielded (tr : list Effect) : list V :=
  omap (λ e, match e with Yield v => Some v | Warn _ => None end) tr.

(** One iteration of [for (const line of lines)]: the effects, and the
    record under construction, or [None] on [return]. *)
Definition on_line (currentEvent : StreamResponse) (line : string)
  : list Effect * option StreamResponse :=
  if Js.startsWith line "event: " then
    ([], Some {| event := Some (Js.slice 7 line);
                 data := data currentEvent;
                 id := id currentEvent |})
  else if Js.startsWith line "data: " then
    let dataStr := Js.slice 6 line in
    if String.eqb dataStr "[DONE]" then ([], None)
    else
      match JSON_parse dataStr with
      | Some v =>
          ([], Some {| event := event currentEvent;
                       data := Some v;
                       id := id currentEvent |})
      | None => ([Warn dataStr], Some currentEvent)
      end
  else if Js.startsWith line "id: " then
    ([], Some {| event := event currentEvent;
                 data := data currentEvent;
                 id := Some (Js.slice 4 line) |})
  else if String.eqb line "" then
    match data currentEvent with
    | Some v =>
        if truthy v then ([Yield v], Some empty)
        else ([], Some currentEvent)
    | None => ([], Some currentEvent)
    end
  else ([], Some currentEvent).

(** The [for] loop over the complete lines of one chunk. *)
Fixpoint for_lines (currentEvent : StreamResponse) (lines : list string)
  : list Effect * option StreamResponse :=
  match lines with
  | [] => ([], Some currentEvent)
  | line :: rest =>
      match on_line currentEvent line with
      | (tr, None) => (tr, None)
      | (tr, Some ev) =>
          let '(tr', r) := for_lines ev rest in (tr ++ tr', r)
      end
  end.

(** How the generator ended: the reader reported [done] (the [break], with
    what was still in [buffer]), or a [data: [DONE]] line was read (the
    [return]).  Both end the generator normally; the body of the loop has
    no [throw] of its own ([JSON.parse]'s is caught). *)
Inductive Exit :=
| ReaderDone (buffer : string)
| Sentinel.

(** The body of [while (true)] for one chunk [value] (the text
    [decoder.decode(value, {stream: true})] returns): the effects and the
    new [buffer], or [None] on [return].  [currentEvent] is declared inside
    the loop body, so every chunk starts from [{}]. *)
Definition on_chunk (buffer value : string) : list Effect * option string :=
  let buffer := buffer +:+ value in
  let lines := Js.split Js.LF buffer in
  let '(tail, lines) := Js.pop lines in
  let buffer := Js.or_else tail "" in
  match for_lines empty lines with
  | (tr, None) => (tr, None)
  | (tr, Some _) => (tr, Some buffer)
  end.

(** The [while (true)] loop over the chunks the reader delivers before it
    reports [done]. *)
Fixpoint read_loop (buffer : string) (chunks : list string)
  : list Effect * Exit :=
  match chunks with
  | [] => ([], ReaderDone buffer)
  | value :: more =>
      match on_chunk buffer value with
      | (tr, None) => (tr, Sentinel)
      | (tr, Some buffer) =>
          let '(tr', e) := read_loop buffer more in (tr ++ tr', e)
      end
  end.

(** [let buffer = ''; while (true) ...] *)
Definition streamAgent (chunks : list string) : list Effect * Exit :=
  read_loop "" chunks.

(** The records the consumer of the generator receives. *)
Definition events (chunks : list string) : list V :=
  yielded (streamAgent chunks).1.

(** *** The wire format, to state what the decoder does on it *)

(** A line feed, and lines each followed by one. *)
Definition nl : string := String Js.LF "".

Definition unlines (ls : list string) : string :=
  foldr (λ l acc, l +:+ nl +:+ acc) "" ls.

(** [free c s]: the character [c] does not occur in [s]. *)
Fixpoint free (c : ascii) (s : string) : bool :=
  match s with
  | EmptyString => true
  | String a r => negb (Ascii.eqb a c) && free c r
  end.

(** The complete lines of a text (what the [for] loop sees after [pop]) and
    the partial last line (what stays in [buffer]). *)
Definition lines_of (text : string) : list string :=
  (Js.pop (Js.split Js.LF text)).2.

Definition rest_of (text : string) : string :=
  Js.or_else (Js.pop (Js.split Js.LF text)).1 "".

(** A record under construction that a blank line would not yield. *)
Definition quiet (ev : StreamResponse) : Prop :=
  match data ev with
  | Some v => truthy v = false
  | None => True
  end.

(** A field line of a record: one line, not blank, not the sentinel. *)
Definition field_line (l : string) : bool :=
  free Js.LF l && negb (String.eqb l "") && negb (String.eqb l "data: [DONE]").

(** A record on the wire: its field lines, closed by a blank line. *)
Definition wire (r : list string) : string := unlines (r ++ [""]).

Definition wires (rs : list (list string)) : string :=
  unlines (concat (map (λ r, r ++ [""]) rs)).

(** The payload of the last [data: ] line of a record that parses, [acc]
    when there is none. *)
Definition payload_from (acc : option V) (r : list string) : option V :=
  foldl (λ acc l,
           if Js.startsWith l "data: " then
             match JSON_parse (Js.slice 6 l) with
             | Some v => Some v
             | None => acc
             end
           else acc) acc r.

Definition payload (r : list string) : option V := payload_from None r.

(** What a blank line yields from a record under construction. *)
Definition closes (ev : StreamResponse) : list V :=
  match data ev with
  | Some v => if truthy v then [v] else []
  | None => []
  end.

(** What a closed record contributes to the output. *)
Definition emit (r : list string) : list V :=
  match payload r with
  | Some v => if truthy v then [v] else []
  | None => []
  end.

(** A [data: ] line. *)
Definition data_line (dataStr : string) : string := "data: " +:+ dataStr.

End Decoder.

End Sse.

(** ** The trace tree builder: [buildSpanHierarchy] (trace-detail-viewer) *)

Module Trace.

(** [UITraceSpan]: the two fields the builder reads, and two of the fields
    it only copies (the others travel the same way). *)
Record UITraceSpan := {
  id : string;
  parent_id : option string;
  name : string;
  duration_ms : Z;
}.

#[global] Instance UITraceSpan_eq_dec : EqDecision UITraceSpan.
Proof. solve_decision. Defined.

(** An object of the [spanMap]: [{ ...span, children: [] }].  Its
    [children] array holds references to objects of the same map; every
    reference the builder stores comes from [spanMap.get(span.id)], so a
    reference is modelled as the key. *)
Record node := { span : UITraceSpan; children : list string }.

(** The first [forEach]: [spanMap.set(span.id, { ...span, children: [] })]. *)
Definition register (spanMap : gmap string node) (span : UITraceSpan)
  : gmap string node :=
  <[id span := {| span := span; children := [] |}]> spanMap.

(** [span.parent_id && spanMap.has(span.parent_id)]: the key of the parent
    the span is attached to.  [null], [undefined] and the empty string are
    falsy. *)
Definition parent_in (spanMap : gmap string node) (span : UITraceSpan)
  : option string :=
  match parent_id span with
  | Some p =>
      if negb (String.eqb p "") && bool_decide (is_Some (spanMap !! p))
      then Some p else None
  | None => None
  end.

(** [children.push(spanWithChildren)] *)
Definition push (ref : string) (parent : node) : node :=
  {| span := span parent; children := children parent ++ [ref] |}.

(** The second [forEach], on the pair of [spanMap] and [rootSpans]. *)
Definition link (st : gmap string node * list string) (span : UITraceSpan)
  : gmap string node * list string :=
  let '(spanMap, rootSpans) := st in
  let spanWithChildren := id span in
  match parent_in spanMap span with
  | Some p => (alter (push spanWithChildren) p spanMap, rootSpans)
  | None => (spanMap, rootSpans ++ [spanWithChildren])
  end.

(** The objects and the root references when the function returns. *)
Definition build (spans : list UITraceSpan)
  : gmap string node * list string :=
  foldl link (foldl register ∅ spans, []) spans.

(** [SpanWithChildren] as a value: what a reader of the returned array
    sees when it follows the references. *)
Inductive SpanWithChildren :=
| Node (s : UITraceSpan) (kids : list SpanWithChildren).

Definition root (t : SpanWithChildren) : UITraceSpan :=
  match t with Node s _ => s end.

Definition kids (t : SpanWithChildren) : list SpanWithChildren :=
  match t with Node _ ks => ks end.

(** Following the references from [ref], at most [fuel] levels deep. *)
Fixpoint reify (fuel : nat) (spanMap : gmap string node) (ref : string)
  : option SpanWithChildren :=
  match fuel with
  | O => None
  | S fuel =>
      match spanMap !! ref with
      | Some n =>
          match mapM (reify fuel spanMap) (children n) with
          | Some ks => Some (Node (span n) ks)
          | None => None
          end
      | None => None
      end
  end.

(** The returned [rootSpans] as a forest; [None] when the objects reachable
    from it nest deeper than there are spans, which only a reference cycle
    does. *)
Definition buildSpanHierarchy (spans : list UITraceSpan)
  : option (list SpanWithChildren) :=
  let '(spanMap, rootSpans) := build spans in
  mapM (reify (length spans) spanMap) rootSpans.

(** *** Notions to state what the forest is *)

(** All the nodes of a tree, parents first. *)
Fixpoint nodes (t : SpanWithChildren) : list SpanWithChildren :=
  match t with
  | Node s ks => Node s ks :: (ks ≫= nodes)
  end.

Definition forest_nodes (forest : list SpanWithChildren)
  : list SpanWithChildren :=
  forest ≫= nodes.

(** The spans of a forest, with multiplicity. *)
Definition flatten (forest : list SpanWithChildren) : list UITraceSpan :=
  root <$> forest_nodes forest.

(** The (parent, child) pairs of a forest: one for every entry of every
    [children] list. *)
Definition edges (forest : list SpanWithChildren)
  : list (UITraceSpan * UITraceSpan) :=
  forest_nodes forest ≫= λ t, (λ k, (root t, root k)) <$> kids t.

(** The parent a span is attached to, given the spans of the input. *)
Definition parent_key (spans : list UITraceSpan) (s : UITraceSpan)
  : option string :=
  match parent_id s with
  | Some p =>
      if negb (String.eqb p "") && bool_decide (p ∈ id <$> spans)
      then Some p else None
  | None => None
  end.

(** The spans without a parent to attach to, and the spans attached to
    [p], both in input order. *)
Definition roots_of (spans : list UITraceSpan) : list UITraceSpan :=
  filter (λ s, parent_key spans s = None) spans.

Definition kids_of (spans : list UITraceSpan) (p : UITraceSpan)
  : list UITraceSpan :=
  filter (λ c, parent_key spans c = Some (id p)) spans.

(** [attached spans c p]: the builder pushes [c] to the children of [p]. *)
Definition attached (spans : list UITraceSpan) (c p : UITraceSpan) : Prop :=
  c ∈ spans ∧ p ∈ spans ∧ parent_key spans c = Some (id p).

(** The spans of the children of a node. *)
Definition child_spans (t : SpanWithChildren) : list UITraceSpan :=
  root <$> kids t.

(** What the tree [t] read at the object of [s] is: the span [s] on top,
    every node with the spans attached to it as children, in input order,
    and, as nodes, the spans below [s], each once. *)
Definition hierarchy_below (spans : list UITraceSpan) (s : UITraceSpan)
    (t : SpanWithChildren) : Prop :=
  root t = s
  ∧ (∀ t', t' ∈ nodes t →
       root t' ∈ spans ∧ child_spans t' = kids_of spans (root t'))
  ∧ (∀ x, x ∈ root <$> nodes t ↔ rtc (attached spans) x s)
  ∧ NoDup (root <$> nodes t)
  ∧ root <$> nodes t ≡ₚ s :: (nodes t ≫= child_spans).

(** An object of the map after the spans [done] have been linked. *)
Definition attach (spanMap : gmap string node) (done : list UITraceSpan)
    (key : string) (n : node) : node :=
  {| span := span n;
     children :=
       children n
       ++ (id <$> filter (λ s, parent_in spanMap s = Some key) done) |}.

(** [parent_of spans c p]: the span [c] names the span [p] as its parent.
    A span is transitively its own ancestor when the transitive closure of
    this relation relates it to itself. *)
Definition parent_of (spans : list UITraceSpan) (c p : UITraceSpan) : Prop :=
  c ∈ spans ∧ p ∈ spans ∧ parent_id c = Some (id p).

Definition acyclic (spans : list UITraceSpan) : Prop :=
  ∀ s, ¬ tc (parent_of spans) s s.

End Trace.

(** ** Pagination: limit, offset, total *)

Module Pagination.

Local Open Scope Z_scope.

(** [useState({ limit, offset, total })] *)
Record state := { limit : Z; offset : Z; total : Z }.

(** [Math.ceil(total / limit)] and [Math.floor(offset / limit) + 1], as in
    [ConversationDetail] and [MemoryScreen] (for [limit > 0]; the quotient
    of [Z] rounds down, and the ceiling is minus the floor of the
    opposite). *)
Definition totalPages (total limit : Z) : Z := - ((- total) / limit).

Definition currentPage (offset limit : Z) : Z := offset / limit + 1.

(** A click on a button: nothing when it is [disabled]. *)
Definition click {S} (disabled : bool) (handler : S → S) (s : S) : S :=
  if disabled then s else handler s.

End Pagination.

(** *** The traces screen (traces-screen.tsx) *)

Module TracesScreen.

Import Pagination.
Local Open Scope Z_scope.

Definition handleNextPage (pagination : state) : state :=
  if offset pagination + limit pagination <? total pagination then
    {| limit := limit pagination;
       offset := offset pagination + limit pagination;
       total := total pagination |}
  else pagination.

Definition handlePrevPage (pagination : state) : state :=
  if 0 <? offset pagination then
    {| limit := limit pagination;
       offset := Z.max 0 (offset pagination - limit pagination);
       total := total pagination |}
  else pagination.

(** The [disabled] attributes of the Previous and Next buttons. *)
Definition prevDisabled (pagination : state) : bool :=
  offset pagination =? 0.

Definition nextDisabled (pagination : state) : bool :=
  total pagination <=? offset pagination + limit pagination.

Section Screen.

(** The traces shown, and the Sample.backend's answer to
    [getTraces(limit, offset)]: the page and the total, [None] when the
    call fails. *)
Context {UITrace : Type}.
Variable getTraces : Z → Z → option (list UITrace * Z).

Record screen := { traces : list UITrace; pagination : state }.

Definition loadTraces (s : screen) : screen :=
  match getTraces (limit (pagination s)) (offset (pagination s)) with
  | Some (page, tot) =>
      {| traces := page;
         pagination := {| limit := limit (pagination s);
                          offset := offset (pagination s);
                          total := tot |} |}
  | None => s
  end.

(** A handler runs, and the effect that depends on [loadTraces] runs
    again when [limit] or [offset] changed. *)
Definition after (handler : state → state) (s : screen) : screen :=
  let p := handler (pagination s) in
  let s' := {| traces := traces s; pagination := p |} in
  if decide (limit p = limit (pagination s)
             ∧ offset p = offset (pagination s))
  then s' else loadTraces s'.

End Screen.

End TracesScreen.

(** *** The memory screen (memory-screen.tsx) *)

Module MemoryScreen.

Local Open Scope Z_scope.

(** [setMessagesOffset(prev => prev + messagesLimit)] *)
Definition handleNextPage (messagesLimit prev : Z) : Z :=
  prev + messagesLimit.

(** [setMessagesOffset(prev => Math.max(0, prev - messagesLimit))] *)
Definition handlePrevPage (messagesLimit prev : Z) : Z :=
  Z.max 0 (prev - messagesLimit).

Section Screen.

Context {MemoryEntry : Type}.

(** The right panel of the screen. *)
Record screen := {
  messages : list MemoryEntry;
  messagesLoading : bool;
  messagesTotal : Z;
  messagesOffset : Z;
  messagesLimit : Z;
}.

Definition totalPages (s : screen) : Z :=
  Pagination.totalPages (messagesTotal s) (messagesLimit s).

Definition currentPage (s : screen) : Z :=
  Pagination.currentPage (messagesOffset s) (messagesLimit s).

(** The page buttons are rendered when [totalPages > 1]; they are
    disabled at the first and at the last page, and while loading. *)
Definition prevDisabled (s : screen) : bool :=
  negb (1 <? totalPages s) || (currentPage s =? 1) || messagesLoading s.

Definition nextDisabled (s : screen) : bool :=
  negb (1 <? totalPages s) || (currentPage s =? totalPages s)
  || messagesLoading s.

Definition setMessagesOffset (f : Z → Z) (s : screen) : screen :=
  {| messages := messages s;
     messagesLoading := messagesLoading s;
     messagesTotal := messagesTotal s;
     messagesOffset := f (messagesOffset s);
     messagesLimit := messagesLimit s |}.

Definition clickPrev (s : screen) : screen :=
  Pagination.click (prevDisabled s)
    (setMessagesOffset (handlePrevPage (messagesLimit s))) s.

Definition clickNext (s : screen) : screen :=
  Pagination.click (nextDisabled s)
    (setMessagesOffset (handleNextPage (messagesLimit s))) s.

End Screen.

End MemoryScreen.

(** ** The memory list response and its consumers *)

Module Memory.

Local Open Scope Z_scope.

Section Consumers.

Context {MemoryEntry ConversationInfo : Type}.

(** [MemoryResponse], with the legacy [entries] property: [None] when
    the response has no such property, [Some None] when it has one that
    is [null] or [undefined]. *)
Record MemoryResponse := {
  mode : option string;
  messages : option (list MemoryEntry);
  conversations : option (list ConversationInfo);
  entries : option (option (list MemoryEntry));
  total : Z;
}.

(** [response.mode === m && response.field] *)
Definition selected {A} (response : MemoryResponse) (m : string)
    (field : option (list A)) : option (list A) :=
  match mode response with
  | Some m' => if String.eqb m' m then field else None
  | None => None
  end.

(** [legacyResponse.entries || []] *)
Definition legacy (e : option (list MemoryEntry)) : list MemoryEntry :=
  match e with Some l => l | None => [] end.

(** memory-browser.tsx, [loadMemory]: the entries after a response, from
    the entries before. *)
Definition loadMemory_entries (prev : list MemoryEntry)
    (response : MemoryResponse) : list MemoryEntry :=
  match selected response "messages" (messages response) with
  | Some ms => ms
  | None =>
      match entries response with
      | Some e => legacy e
      | None => prev
      end
  end.

(** memory-browser.tsx, [loadMore]: [newEntries]. *)
Definition loadMore_newEntries (response : MemoryResponse)
  : list MemoryEntry :=
  match selected response "messages" (messages response) with
  | Some ms => ms
  | None =>
      match entries response with
      | Some e => legacy e
      | None => []
      end
  end.




(** *** The memory browser (memory-browser.tsx) *)

(** [agentAPI.getMemory(limit, offset)]: the response, [None] when the
    call throws. *)
Variable getMemory : Z → Z → option MemoryResponse.

(** The state of the browser; [browser_entries] is its [entries]. *)
Record browser := {
  browser_entries : list MemoryEntry;
  pagination : Pagination.state;
  loading : bool;
}.

Definition loadMemory (s : browser) : browser :=
  let p := pagination s in
  match getMemory (Pagination.limit p) (Pagination.offset p) with
  | Some response =>
      {| browser_entries := loadMemory_entries (browser_entries s) response;
         pagination := {| Pagination.limit := Pagination.limit p;
                          Pagination.offset := Pagination.offset p;
                          Pagination.total := total response |};
         loading := false |}
  | None =>
      {| browser_entries := browser_entries s; pagination := p;
         loading := false |}
  end.

Definition loadMore (s : browser) : browser :=
  let p := pagination s in
  let newOffset := Pagination.offset p + Pagination.limit p in
  match getMemory (Pagination.limit p) newOffset with
  | Some response =>
      {| browser_entries := browser_entries s ++ loadMore_newEntries response;
         pagination := {| Pagination.limit := Pagination.limit p;
                          Pagination.offset := newOffset;
                          Pagination.total := Pagination.total p |};
         loading := false |}
  | None =>
      {| browser_entries := browser_entries s; pagination := p;
         loading := false |}
  end.

End Consumers.

End Memory.

(** ** The decoder on the whole text of a stream *)

Module SseText.

Section Text.

Context {V : Type}.
Variable JSON_parse : string → option V.
Variable truthy : V → bool.

(** The text of a stream: its chunks one after the other. *)
Definition text (chunks : list string) : string :=
  foldr String.append "" chunks.

(** What a line can contribute to the output: the payload of a [data: ]
    line, when it parses to a truthy value. *)
Definition delivered (line : string) : option V :=
  if Js.startsWith line "data: " then
    match JSON_parse (Js.slice 6 line) with
    | Some v => if truthy v then Some v else None
    | None => None
    end
  else None.

(** Two records under construction with the same [data]; and two outcomes
    of the [for] loop that agree on it. *)
Definition same_data (ev ev' : Sse.StreamResponse (V:=V)) : Prop :=
  Sse.data ev = Sse.data ev'.

Definition same_outcome (r r' : option (Sse.StreamResponse (V:=V))) : Prop :=
  match r, r' with
  | Some ev, Some ev' => same_data ev ev'
  | None, None => True
  | _, _ => False
  end.

(** Two outcomes of the [for] loop after which a blank line yields the
    same. *)
Definition alike (r r' : option (Sse.StreamResponse (V:=V))) : Prop :=
  match r, r' with
  | Some ev, Some ev' => Sse.closes truthy ev = Sse.closes truthy ev'
  | None, None => True
  | _, _ => False
  end.

End Text.

(** The [lines] array of every iteration of the [while] loop, when no
    iteration returns: the complete lines of [buffer + chunk]. *)
Fixpoint lines_per_chunk (buffer : string) (chunks : list string)
  : list (list string) :=
  match chunks with
  | [] => []
  | value :: more =>
      Sse.lines_of (buffer +:+ value)
      :: lines_per_chunk (Sse.rest_of (buffer +:+ value)) more
  end.

(** A carriage return. *)
Definition cr : string := String (ascii_of_nat 13) "".

End SseText.

(** ** The trace detail viewer: expansion and rendering *)

Module TraceView.

Import Trace.

(** [toggleSpanExpansion]: a copy of the set with the id removed when it was
    in, added when it was not. *)
Definition toggleSpanExpansion (expandedSpans : gset string) (spanId : string)
  : gset string :=
  if decide (spanId ∈ expandedSpans) then expandedSpans ∖ {[spanId]}
  else expandedSpans ∪ {[spanId]}.

(** One [Collapsible] of [renderSpanTree]: the span, the [level] its
    [marginLeft] is computed from, whether it is open, and whether it shows a
    chevron ([span.children.length > 0]). *)
Record row := {
  row_span : UITraceSpan;
  row_level : nat;
  row_open : bool;
  row_chevron : bool;
}.

(** [marginLeft: `${level * 20}px`] *)
Definition marginLeft (r : row) : Z := Z.of_nat (row_level r) * 20.

(** [renderSpanTree(spans, level)], as the rows in document order: every
    span, then, inside its [CollapsibleContent], the rows of its children
    one level deeper. *)
Fixpoint renderSpan (expandedSpans : gset string) (level : nat)
    (t : SpanWithChildren) : list row :=
  match t with
  | Node s ks =>
      {| row_span := s; row_level := level;
         row_open := bool_decide (id s ∈ expandedSpans);
         row_chevron := negb (Nat.eqb (length ks) 0) |}
      :: (ks ≫= renderSpan expandedSpans (S level))
  end.

Definition renderSpanTree (expandedSpans : gset string)
    (spans : list SpanWithChildren) (level : nat) : list row :=
  spans ≫= renderSpan expandedSpans level.

(** The span that [spanMap] holds under the id [k] after the first
    [forEach]: the last span of the input with that id. *)
Definition registered (spans : list UITraceSpan) (k : string)
  : option UITraceSpan :=
  last (filter (λ s, id s = k) spans).

End TraceView.

(** ** An offset in range: a multiple of the limit, inside the listed
    items (or [0] when there is none) *)

Module PageRange.

Local Open Scope Z_scope.

Definition in_range (limit total offset : Z) : Prop :=
  0 ≤ offset ∧ offset mod limit = 0 ∧ (offset = 0 ∨ offset < total).

End PageRange.

(** ** The traces screen: the range shown and sequences of page turns *)

Module TracesView.

Import Pagination.
Local Open Scope Z_scope.

(** [Showing {Math.min(offset + 1, total)} to
    {Math.min(offset + limit, total)} of {total} traces] *)
Definition showingFrom (pagination : state) : Z :=
  Z.min (offset pagination + 1) (total pagination).

Definition showingTo (pagination : state) : Z :=
  Z.min (offset pagination + limit pagination) (total pagination).

(** The two page buttons. *)
Inductive button := Previous | Next.

Definition disabled (b : button) (pagination : state) : bool :=
  match b with
  | Previous => TracesScreen.prevDisabled pagination
  | Next => TracesScreen.nextDisabled pagination
  end.

Definition handler (b : button) : state → state :=
  match b with
  | Previous => TracesScreen.handlePrevPage
  | Next => TracesScreen.handleNextPage
  end.

Section Screen.

Context {UITrace : Type}.
Variable getTraces : Z → Z → option (list UITrace * Z).

(** A click on a button, with the reload that follows a change of page. *)
Definition press (b : button) (s : TracesScreen.screen (UITrace:=UITrace))
  : TracesScreen.screen :=
  click (disabled b (TracesScreen.pagination s))
    (TracesScreen.after getTraces (handler b)) s.

Definition presses (bs : list button)
    (s : TracesScreen.screen (UITrace:=UITrace)) : TracesScreen.screen :=
  foldl (λ s b, press b s) s bs.

End Screen.

End TracesView.

(** ** The memory screen: sequences of clicks and conversation ids *)

Module MemoryView.

Local Open Scope Z_scope.

Section Screen.

Context {MemoryEntry ConversationInfo : Type}.

#[local] Abbreviation Response :=
  (Memory.MemoryResponse (MemoryEntry:=MemoryEntry)
     (ConversationInfo:=ConversationInfo)).

(** [agentAPI.getConversationMessages(conversationId, limit, offset)]:
    the response, [None] when the call throws. *)
Variable getConversationMessages : string → Z → Z → option Response.

(** [selectedConversationId], [null] at first. *)
Variable selectedConversationId : option string.

(** [loadMessages]: nothing without a selected conversation; the messages
    and the total are replaced only by a response in mode [messages]. *)
Definition loadMessages (s : MemoryScreen.screen (MemoryEntry:=MemoryEntry))
  : MemoryScreen.screen :=
  match selectedConversationId with
  | None => s
  | Some conversationId =>
      if String.eqb conversationId "" then s
      else
        match getConversationMessages conversationId
                (MemoryScreen.messagesLimit s) (MemoryScreen.messagesOffset s)
        with
        | Some response =>
            match Memory.selected response "messages"
                    (Memory.messages response) with
            | Some ms =>
                {| MemoryScreen.messages := ms;
                   MemoryScreen.messagesLoading := false;
                   MemoryScreen.messagesTotal := Memory.total response;
                   MemoryScreen.messagesOffset := MemoryScreen.messagesOffset s;
                   MemoryScreen.messagesLimit := MemoryScreen.messagesLimit s |}
            | None =>
                {| MemoryScreen.messages := MemoryScreen.messages s;
                   MemoryScreen.messagesLoading := false;
                   MemoryScreen.messagesTotal := MemoryScreen.messagesTotal s;
                   MemoryScreen.messagesOffset := MemoryScreen.messagesOffset s;
                   MemoryScreen.messagesLimit := MemoryScreen.messagesLimit s |}
            end
        | None =>
            {| MemoryScreen.messages := MemoryScreen.messages s;
               MemoryScreen.messagesLoading := false;
               MemoryScreen.messagesTotal := MemoryScreen.messagesTotal s;
               MemoryScreen.messagesOffset := MemoryScreen.messagesOffset s;
               MemoryScreen.messagesLimit := MemoryScreen.messagesLimit s |}
        end
  end.

(** The two page buttons of the right panel. *)
Inductive button := Previous | Next.

Definition click (b : button) (s : MemoryScreen.screen (MemoryEntry:=MemoryEntry))
  : MemoryScreen.screen :=
  match b with
  | Previous => MemoryScreen.clickPrev s
  | Next => MemoryScreen.clickNext s
  end.

(** A click, and the effect on [messagesOffset] that loads the messages
    again when the offset changed. *)
Definition press (b : button) (s : MemoryScreen.screen (MemoryEntry:=MemoryEntry))
  : MemoryScreen.screen :=
  let s' := click b s in
  if decide (MemoryScreen.messagesOffset s' = MemoryScreen.messagesOffset s)
  then s' else loadMessages s'.

Definition presses (bs : list button)
    (s : MemoryScreen.screen (MemoryEntry:=MemoryEntry))
  : MemoryScreen.screen :=
  foldl (λ s b, press b s) s bs.

End Screen.

(** [parts.join(sep)] *)
Fixpoint join (sep : string) (parts : list string) : string :=
  match parts with
  | [] => ""
  | [p] => p
  | p :: rest => p +:+ sep +:+ join sep rest
  end.

Definition colon : ascii := ":"%char.

(** [getCleanConversationId]: without the organisation prefix,
    [default-org:conv_123] becomes [conv_123]. *)
Definition getCleanConversationId (fullId : string) : string :=
  let parts := Js.split colon fullId in
  if (1 <? length parts)%nat then join ":" (tail parts) else fullId.

End MemoryView.

(** ** The conversation detail (its pagination bar) *)

Module ConversationDetail.

Local Open Scope Z_scope.

Section Props.

Context {MemoryEntry : Type}.

(** The props the view reads for its pagination bar. *)
Record props := {
  messages : list MemoryEntry;
  total : Z;
  limit : Z;
  offset : Z;
  loading : bool;
}.

Definition totalPages (p : props) : Z :=
  Pagination.totalPages (total p) (limit p).

Definition currentPage (p : props) : Z :=
  Pagination.currentPage (offset p) (limit p).

(** [if (loading && messages.length === 0)]: the spinner is returned in
    place of the view. *)
Definition placeholder (p : props) : bool :=
  loading p && Nat.eqb (length (messages p)) 0.

(** [{totalPages > 1 && ...}], in the view. *)
Definition paginationShown (p : props) : bool :=
  negb (placeholder p) && (1 <? totalPages p).

(** [disabled={currentPage === 1 || loading}] and
    [disabled={currentPage === totalPages || loading}] *)
Definition prevDisabled (p : props) : bool :=
  (currentPage p =? 1) || loading p.

Definition nextDisabled (p : props) : bool :=
  (currentPage p =? totalPages p) || loading p.

End Props.

End ConversationDetail.

(** ** The memory browser: Load More until nothing is left *)

Module MemoryBrowser.

Local Open Scope Z_scope.

(** The white space and the line terminators that [trim] removes: tab,
    line feed, vertical tab, form feed, carriage return, space and
    no-break space (the others lie above the code units of the strings
    modelled here). *)
Definition isWhiteSpace (c : ascii) : bool :=
  let n := nat_of_ascii c in
  (Nat.eqb n 9 || Nat.eqb n 10 || Nat.eqb n 11 || Nat.eqb n 12
   || Nat.eqb n 13 || Nat.eqb n 32 || Nat.eqb n 160)%bool.

Fixpoint trimStart (s : string) : string :=
  match s with
  | EmptyString => EmptyString
  | String c r => if isWhiteSpace c then trimStart r else s
  end.

Fixpoint trimEnd (s : string) : string :=
  match s with
  | EmptyString => EmptyString
  | String c r =>
      let r' := trimEnd r in
      if isWhiteSpace c && String.eqb r' "" then EmptyString
      else String c r'
  end.

(** [s.trim()] *)
Definition trim (s : string) : string := trimEnd (trimStart s).

Section Browser.

Context {MemoryEntry ConversationInfo : Type}.

#[local] Abbreviation Response :=
  (Memory.MemoryResponse (MemoryEntry:=MemoryEntry)
     (ConversationInfo:=ConversationInfo)).

(** [displayEntries = searchQuery.trim() ? searchResults : entries] *)
Definition displayEntries (searchQuery : string)
    (searchResults : list MemoryEntry)
    (s : Memory.browser (MemoryEntry:=MemoryEntry)) : list MemoryEntry :=
  if String.eqb (trim searchQuery) "" then Memory.browser_entries s
  else searchResults.

(** The Load More button: in the branch of [displayEntries.length === 0 ?
    ... : ...] that lists the entries, under
    [!searchQuery.trim() && pagination.offset + pagination.limit <
    pagination.total]. *)
Definition loadMoreShown (searchQuery : string)
    (searchResults : list MemoryEntry)
    (s : Memory.browser (MemoryEntry:=MemoryEntry)) : bool :=
  let p := Memory.pagination s in
  negb (Nat.eqb (length (displayEntries searchQuery searchResults s)) 0)
  && (String.eqb (trim searchQuery) ""
      && (Pagination.offset p + Pagination.limit p <? Pagination.total p)).

(** [Load More ({pagination.total - (pagination.offset + pagination.limit)}
    remaining)] *)
Definition remaining (s : Memory.browser (MemoryEntry:=MemoryEntry)) : Z :=
  let p := Memory.pagination s in
  Pagination.total p - (Pagination.offset p + Pagination.limit p).

(** [loadMore] runs against [answer]; then, [loadMemory] being a callback
    on [pagination.limit] and [pagination.offset], the effect on
    [open, loadMemory] runs it again (against [reload]) when the dialog is
    open and one of the two changed. *)
Definition loadMoreAndEffect (open : bool)
    (answer reload : Z → Z → option Response)
    (s : Memory.browser (MemoryEntry:=MemoryEntry)) : Memory.browser :=
  let s' := Memory.loadMore answer s in
  let p := Memory.pagination s in
  let p' := Memory.pagination s' in
  if decide (Pagination.limit p' = Pagination.limit p
             ∧ Pagination.offset p' = Pagination.offset p)
  then s'
  else if open then Memory.loadMemory reload s' else s'.

(** At most [clicks] clicks on Load More, as long as it is rendered and
    not disabled ([disabled={loading}]), in the open dialog, the search
    text and the search results staying as they are. *)
Fixpoint loadMoreWhileShown (getMemory : Z → Z → option Response)
    (searchQuery : string) (searchResults : list MemoryEntry)
    (clicks : nat) (s : Memory.browser (MemoryEntry:=MemoryEntry))
  : Memory.browser :=
  match clicks with
  | O => s
  | S clicks =>
      if loadMoreShown searchQuery searchResults s
      then loadMoreWhileShown getMemory searchQuery searchResults clicks
             (Pagination.click (Memory.loading s)
                (loadMoreAndEffect true getMemory getMemory) s)
      else s
  end.

End Browser.

(** A backend that holds the entries [db] and serves them in pages. *)
Definition paged {MemoryEntry ConversationInfo : Type}
    (db : list MemoryEntry) (limit offset : Z)
  : option (Memory.MemoryResponse (MemoryEntry:=MemoryEntry)
              (ConversationInfo:=ConversationInfo)) :=
  Some {| Memory.mode := Some "messages";
          Memory.messages :=
            Some (take (Z.to_nat limit) (drop (Z.to_nat offset) db));
          Memory.conversations := None;
          Memory.entries := None;
          Memory.total := Z.of_nat (length db) |}.

(** The browser holds the page of [db] at its offset, and nothing else. *)
Definition shows_page {MemoryEntry : Type} (db : list MemoryEntry)
    (limit : Z) (s : Memory.browser (MemoryEntry:=MemoryEntry)) : Prop :=
  Pagination.limit (Memory.pagination s) = limit
  ∧ 0 ≤ Pagination.offset (Memory.pagination s)
  ∧ Pagination.total (Memory.pagination s) = Z.of_nat (length db)
  ∧ Memory.loading s = false
  ∧ Memory.browser_entries s
    = take (Z.to_nat limit)
        (drop (Z.to_nat (Pagination.offset (Memory.pagination s))) db).

End MemoryBrowser.

(** ** Sample inputs, run with the reference parser *)

Module Sample.

Definition dq : string := String (ascii_of_nat 34) "".

(** The JSON text of an object with one member, [{"k":n}]. *)
Definition object1 (k n : string) : string :=
  "{" +:+ dq +:+ k +:+ dq +:+ ":" +:+ n +:+ "}".

(** The parsed value of [object1 k n] for a one-letter key and the
    number [n]. *)
Definition parsed1 (k n : N) : Json.value :=
  Json.Object
    [([k], Json.Number {| Json.neg := false; Json.mant := n;
                          Json.exp10 := 0 |})].

Definition number (n : N) : Json.value :=
  Json.Number {| Json.neg := false; Json.mant := n; Json.exp10 := 0 |}.

Definition streamAgent := Sse.streamAgent Json.parse Json.truthy.
Definition events := Sse.events Json.parse Json.truthy.

(** The stream of the specification's example: two records and the
    sentinel. *)
Definition record_a : string := Sse.wire [Sse.data_line (object1 "a" "1")].
Definition record_b : string := Sse.wire [Sse.data_line (object1 "b" "2")].
Definition done : string := Sse.wire ["data: [DONE]"].

(** A span named after its id. *)
Definition sp (i : string) (p : option string) : Trace.UITraceSpan :=
  {| Trace.id := i; Trace.parent_id := p; Trace.name := i;
     Trace.duration_ms := 0 |}.

(** Two spans, the second with the empty string as [parent_id], which is
    the id of the first. *)
Definition empty_id_spans : list Trace.UITraceSpan :=
  [sp "" None; sp "a" (Some "")].

(** Five spans out of hierarchy order, one with a parent that is not in
    the list. *)
Definition five_spans : list Trace.UITraceSpan :=
  [sp "c" (Some "a"); sp "a" None; sp "b" (Some "a"); sp "d" (Some "zz");
   sp "e" (Some "c")].

Definition five_rank (s : Trace.UITraceSpan) : nat :=
  if String.eqb (Trace.id s) "e" then 2
  else if String.eqb (Trace.id s) "c" || String.eqb (Trace.id s) "b" then 1
  else 0.

(** Responses over entries and conversations that are numbers. *)
Definition response_of (mode : option string)
    (messages conversations : option (list nat))
    (entries : option (option (list nat))) : Memory.MemoryResponse :=
  {| Memory.mode := mode; Memory.messages := messages;
     Memory.conversations := conversations; Memory.entries := entries;
     Memory.total := 3 |}.

(** A backend with five entries, two per page, that serves entry 2 again on
    the second page. *)
Definition backend (limit offset : Z) : option Memory.MemoryResponse :=
  if (offset =? 2)%Z then
    Some (response_of (Some "messages") (Some [2; 3]) None None)
  else None.

End Sample.

(** ** Further sample inputs *)

Module SampleView.


(** Two spans without parent that share their id. *)
Definition first_a : Trace.UITraceSpan :=
  {| Trace.id := "a"; Trace.parent_id := None; Trace.name := "first";
     Trace.duration_ms := 1 |}.

Definition second_a : Trace.UITraceSpan :=
  {| Trace.id := "a"; Trace.parent_id := None; Trace.name := "second";
     Trace.duration_ms := 2 |}.

Definition colliding : list Trace.UITraceSpan := [first_a; second_a].

(** A traces backend with 60 traces (numbers), and the screen on its first
    page of 25. *)
Definition traces_backend (limit offset : Z) : option (list nat * Z) :=
  Some (take (Z.to_nat limit) (drop (Z.to_nat offset) (seq 0 60)), 60%Z).

Definition traces_start : TracesScreen.screen (UITrace:=nat) :=
  {| TracesScreen.traces := [];
     TracesScreen.pagination :=
       {| Pagination.limit := 25; Pagination.offset := 0;
          Pagination.total := 60 |} |}.

(** A conversation of 120 messages (numbers), and the memory screen on its
    first page of 50. *)
Definition messages_api (conversationId : string) (limit offset : Z)
  : option (Memory.MemoryResponse (MemoryEntry:=nat) (ConversationInfo:=nat)) :=
  MemoryBrowser.paged (seq 0 120) limit offset.

Definition memory_start : MemoryScreen.screen (MemoryEntry:=nat) :=
  {| MemoryScreen.messages := [];
     MemoryScreen.messagesLoading := false;
     MemoryScreen.messagesTotal := 120;
     MemoryScreen.messagesOffset := 0;
     MemoryScreen.messagesLimit := 50 |}.

(** The props of a conversation detail on page 2 of 3. *)
Definition detail : ConversationDetail.props :=
  {| ConversationDetail.messages := [50; 51]%nat;
     ConversationDetail.total := 120;
     ConversationDetail.limit := 50;
     ConversationDetail.offset := 50;
     ConversationDetail.loading := false |}.

(** The browser before a Load More, with one page of two entries out of
    five. *)
Definition browser_start : Memory.browser :=
  {| Memory.browser_entries := [0; 1]%nat;
     Memory.pagination :=
       {| Pagination.limit := 2; Pagination.offset := 0;
          Pagination.total := 5 |};
     Memory.loading := false |}.

(** A backend that answers in the legacy shape, with the entries 2 and 3. *)
Definition legacy_backend (limit offset : Z)
  : option (Memory.MemoryResponse (MemoryEntry:=nat) (ConversationInfo:=nat)) :=
  Some (Sample.response_of None None None (Some (Some [2; 3]%nat))).

Definition five_entries (limit offset : Z)
  : option (Memory.MemoryResponse (MemoryEntry:=nat) (ConversationInfo:=nat)) :=
  MemoryBrowser.paged (seq 0 5) limit offset.

End SampleView.

(** * Facts *)

(** ** Strings *)

Lemma sapp_nil (s : string) : "" +:+ s = s.
Proof. reflexivity. Qed.

Lemma sapp_cons (x : ascii) (a b : string) :
  String x a +:+ b = String x (a +:+ b).
Proof. reflexivity. Qed.

Lemma sapp_assoc (a b c : string) : (a +:+ b) +:+ c = a +:+ (b +:+ c).
Proof.
  induction a as [|x a IH]; [done|]. by rewrite !sapp_cons, IH.
Qed.

Lemma sapp_empty_r (a : string) : a +:+ "" = a.
Proof. induction a as [|x a IH]; [done|]. by rewrite sapp_cons, IH. Qed.

Lemma split_aux_free (l rest : string) :
  Sse.free Js.LF l = true →
  Js.split_aux Js.LF (l +:+ String Js.LF rest) = (l, Js.split Js.LF rest).
Proof.
  induction l as [|x l IH]; intros H.
  - rewrite sapp_nil. unfold Js.split. simpl.
    by destruct (Js.split_aux Js.LF rest).
  - simpl in H. apply andb_true_iff in H as [Hx Hl].
    rewrite sapp_cons. simpl. rewrite (IH Hl).
    apply negb_true_iff in Hx. by rewrite Hx.
Qed.

Lemma split_unlines (ls : list string) (rest : string) :
  Forall (λ l, Sse.free Js.LF l = true) ls →
  Js.split Js.LF (Sse.unlines ls +:+ rest) = ls ++ Js.split Js.LF rest.
Proof.
  induction 1 as [|l ls Hl _ IH]; [done|].
  change (Sse.unlines (l :: ls)) with (l +:+ Sse.nl +:+ Sse.unlines ls).
  rewrite !sapp_assoc. unfold Sse.nl. rewrite sapp_cons, sapp_nil.
  unfold Js.split at 1. rewrite (split_aux_free _ _ Hl). by rewrite IH.
Qed.

Lemma split_cons (s : string) : ∃ h t, Js.split Js.LF s = h :: t.
Proof. unfold Js.split. destruct (Js.split_aux Js.LF s); eauto. Qed.

Lemma lines_of_unlines (ls : list string) (rest : string) :
  Forall (λ l, Sse.free Js.LF l = true) ls →
  Sse.lines_of (Sse.unlines ls +:+ rest) = ls ++ Sse.lines_of rest.
Proof.
  intros H. unfold Sse.lines_of, Js.pop. simpl. rewrite split_unlines by done.
  destruct (split_cons rest) as (h & t & ->). by rewrite removelast_app.
Qed.

Lemma rest_of_unlines (ls : list string) (rest : string) :
  Forall (λ l, Sse.free Js.LF l = true) ls →
  Sse.rest_of (Sse.unlines ls +:+ rest) = Sse.rest_of rest.
Proof.
  intros H. unfold Sse.rest_of, Js.pop. simpl. rewrite split_unlines by done.
  destruct (split_cons rest) as (h & t & ->). rewrite last_app.
  by destruct (last (h :: t)) eqn:E; [|by rewrite last_cons in E; destruct (last t)].
Qed.

(** A text is its complete lines, each with its line feed, and the partial
    line after the last line feed. *)
Lemma split_unsplit (text : string) (ls : list string) (r : string) :
  Js.split Js.LF text = ls ++ [r] →
  text = Sse.unlines ls +:+ r
  ∧ Forall (λ l, Sse.free Js.LF l = true) ls ∧ Sse.free Js.LF r = true.
Proof.
  revert ls r. induction text as [|c text IH]; intros ls r.
  - destruct ls as [|? [|? ?]]; [|done..]. by intros [= <-].
  - unfold Js.split in *. simpl.
    destruct (Js.split_aux Js.LF text) as [h t].
    destruct (Ascii.eqb_spec c Js.LF) as [->|Hc].
    + destruct ls as [|l ls]; [by destruct t|]. intros [= <- E].
      destruct (IH ls r E) as (-> & Hls & Hr). by repeat constructor.
    + assert (negb (Ascii.eqb c Js.LF) = true) as Hc'
        by (by apply negb_true_iff, Ascii.eqb_neq).
      destruct ls as [|l ls].
      * intros [= <- ->]. destruct (IH [] h eq_refl) as (-> & _ & Hh).
        split; [done|]. split; [done|]. simpl. by rewrite Hc', Hh.
      * intros [= <- E]. destruct (IH (h :: ls) r) as (-> & Hls & Hr).
        { by rewrite E. }
        apply Forall_cons in Hls as [Hh Hls].
        split; [done|]. split; [|done]. constructor; [|done].
        simpl. by rewrite Hc', Hh.
Qed.

Lemma text_lines_rest (text : string) :
  text = Sse.unlines (Sse.lines_of text) +:+ Sse.rest_of text
  ∧ Forall (λ l, Sse.free Js.LF l = true) (Sse.lines_of text).
Proof.
  unfold Sse.lines_of, Sse.rest_of, Js.pop. simpl.
  destruct (split_cons text) as (h & t & E).
  destruct (exists_last (l:=h :: t)) as (ls & r & E'); [done|].
  rewrite E, E' in *. rewrite removelast_last, last_snoc.
  destruct (split_unsplit text ls r E) as (-> & Hls & Hr).
  split; [|done]. f_equal. unfold Js.or_else.
  by destruct (String.eqb_spec r "").
Qed.

(** The buffer carries the partial last line over a chunk boundary: the
    complete lines seen chunk by chunk are the complete lines of the whole
    text, and what is left in the buffer is the same. *)
Lemma lines_of_app (x y : string) :
  Sse.lines_of (x +:+ y)
  = Sse.lines_of x ++ Sse.lines_of (Sse.rest_of x +:+ y)
  ∧ Sse.rest_of (x +:+ y) = Sse.rest_of (Sse.rest_of x +:+ y).
Proof.
  destruct (text_lines_rest x) as [E Hl].
  assert (x +:+ y
          = Sse.unlines (Sse.lines_of x) +:+ (Sse.rest_of x +:+ y)) as E2.
  { by rewrite <- sapp_assoc, <- E. }
  by rewrite E2, lines_of_unlines, rest_of_unlines.
Qed.

Lemma lines_of_empty : Sse.lines_of "" = [].
Proof. reflexivity. Qed.

Lemma rest_of_empty : Sse.rest_of "" = "".
Proof. reflexivity. Qed.

Lemma startsWith_cons (b a : ascii) (s p : string) :
  Js.startsWith (String b s) (String a p) = Ascii.eqb a b && Js.startsWith s p.
Proof. reflexivity. Qed.

Lemma event_not_data (l : string) :
  Js.startsWith l "event: " = true → Js.startsWith l "data: " = false.
Proof.
  destruct l as [|c l]; [done|]. rewrite !startsWith_cons.
  destruct (Ascii.eqb_spec "e" c) as [<-|]; [|done]. by intros _.
Qed.

Lemma startsWith_slice (l p : string) :
  Js.startsWith l p = true → l = p +:+ Js.slice (String.length p) l.
Proof.
  revert l. induction p as [|a p IH]; intros l H; [done|].
  destruct l as [|b l]; [done|]. rewrite startsWith_cons in H.
  apply andb_true_iff in H as [Hab Hp]. apply Ascii.eqb_eq in Hab as ->.
  rewrite sapp_cons.
  change (Js.slice (String.length (String b p)) (String b l))
    with (Js.slice (String.length p) l).
  by rewrite <- (IH _ Hp).
Qed.

(** ** The stream decoder *)

Section DecoderFacts.

Context {V : Type} (JSON_parse : string → option V) (truthy : V → bool).

#[local] Abbreviation on_line := (Sse.on_line JSON_parse truthy).
#[local] Abbreviation for_lines := (Sse.for_lines JSON_parse truthy).
#[local] Abbreviation on_chunk := (Sse.on_chunk JSON_parse truthy).
#[local] Abbreviation read_loop := (Sse.read_loop JSON_parse truthy).
#[local] Abbreviation streamAgent := (Sse.streamAgent JSON_parse truthy).
#[local] Abbreviation events := (Sse.events JSON_parse truthy).
#[local] Abbreviation payload_from := (Sse.payload_from JSON_parse).
#[local] Abbreviation payload := (Sse.payload JSON_parse).
#[local] Abbreviation emit := (Sse.emit JSON_parse truthy).
#[local] Abbreviation closes := (Sse.closes truthy).
#[local] Abbreviation quiet := (Sse.quiet truthy).
#[local] Abbreviation is_field := (λ l, Sse.field_line l = true).
#[local] Abbreviation is_line := (λ l, Sse.free Js.LF l = true).

Implicit Types (ev : Sse.StreamResponse (V:=V)) (tr : list (Sse.Effect (V:=V))).

Lemma yielded_app tr1 tr2 :
  Sse.yielded (tr1 ++ tr2) = Sse.yielded tr1 ++ Sse.yielded tr2.
Proof. apply omap_app. Qed.

Lemma for_lines_app ev l1 l2 :
  for_lines ev (l1 ++ l2) =
  match for_lines ev l1 with
  | (tr, None) => (tr, None)
  | (tr, Some ev') => let '(tr', r) := for_lines ev' l2 in (tr ++ tr', r)
  end.
Proof.
  revert ev. induction l1 as [|l l1 IH]; intros ev; simpl.
  - by destruct (for_lines ev l2).
  - destruct (on_line ev l) as [tr [ev'|]]; [|done]. rewrite IH.
    destruct (for_lines ev' l1) as [tr1 [ev1|]]; [|done].
    destruct (for_lines ev1 l2). by rewrite app_assoc.
Qed.

(** The only line that yields is a blank one, and it yields the payload of
    the record under construction when that is truthy. *)
Lemma on_line_yielded ev l :
  Sse.yielded (on_line ev l).1 = if String.eqb l "" then closes ev else [].
Proof.
  unfold Sse.on_line, Sse.closes.
  destruct (Js.startsWith l "event: ") eqn:He.
  { destruct l; [done|]. done. }
  destruct (Js.startsWith l "data: ") eqn:Hd.
  { destruct l; [done|]. simpl.
    destruct (String.eqb _ "[DONE]"); [done|].
    by destruct (JSON_parse _). }
  destruct (Js.startsWith l "id: ") eqn:Hi.
  { destruct l; [done|]. done. }
  destruct (String.eqb l ""); [|done].
  destruct (Sse.data ev) as [v|]; [|done]. by destruct (truthy v).
Qed.

Lemma on_line_blank ev :
  on_line ev "" =
  (Sse.Yield <$> closes ev,
   Some (if decide (closes ev = []) then ev else Sse.empty)).
Proof.
  unfold Sse.on_line, Sse.closes. simpl.
  destruct (Sse.data ev) as [v|]; [|done]. by destruct (truthy v).
Qed.

Lemma on_line_field ev l :
  Sse.field_line l = true →
  ∃ tr ev', on_line ev l = (tr, Some ev') ∧ Sse.yielded tr = []
            ∧ Sse.data ev' = payload_from (Sse.data ev) [l].
Proof.
  unfold Sse.field_line. rewrite !andb_true_iff, !negb_true_iff.
  intros [[_ Hne] Hnd]. unfold Sse.on_line, Sse.payload_from. simpl.
  destruct (Js.startsWith l "event: ") eqn:He.
  { rewrite (event_not_data _ He). eauto. }
  destruct (Js.startsWith l "data: ") eqn:Hd.
  { destruct (String.eqb (Js.slice 6 l) "[DONE]") eqn:Hs.
    - apply String.eqb_eq in Hs. apply startsWith_slice in Hd.
      change (String.length "data: ") with 6 in Hd.
      rewrite Hs in Hd. by subst l.
    - destruct (JSON_parse (Js.slice 6 l)); eauto. }
  destruct (Js.startsWith l "id: "); [eauto|].
  rewrite Hne. eauto.
Qed.

Lemma for_lines_fields ev r :
  Forall is_field r →
  ∃ tr ev', for_lines ev r = (tr, Some ev') ∧ Sse.yielded tr = []
            ∧ Sse.data ev' = payload_from (Sse.data ev) r.
Proof.
  intros H. revert ev. induction H as [|l r Hl _ IH]; intros ev.
  - by exists [], ev.
  - destruct (on_line_field ev l Hl) as (tr & ev1 & E1 & Y1 & D1).
    destruct (IH ev1) as (tr' & ev2 & E2 & Y2 & D2).
    exists (tr ++ tr'), ev2. simpl. rewrite E1, E2.
    split; [done|]. split; [by rewrite yielded_app, Y1, Y2|].
    rewrite D2, D1. done.
Qed.

Lemma payload_from_default acc r :
  payload_from acc r =
  match payload r with Some v => Some v | None => acc end.
Proof.
  unfold Sse.payload. revert acc.
  induction r as [|l r IH]; intros acc; [done|].
  unfold Sse.payload_from in *. simpl. rewrite IH. symmetry. rewrite IH.
  destruct (foldl _ None r); [done|].
  destruct (Js.startsWith l "data: "); [|done].
  by destruct (JSON_parse _).
Qed.

Lemma for_lines_record ev r :
  Forall is_field r → quiet ev →
  ∃ tr ev', for_lines ev (r ++ [""]) = (tr, Some ev')
            ∧ Sse.yielded tr = emit r ∧ quiet ev'.
Proof.
  intros Hr Hq.
  destruct (for_lines_fields ev r Hr) as (tr & ev1 & E1 & Y1 & D1).
  rewrite for_lines_app, E1. simpl. rewrite on_line_blank.
  eexists _, _. split; [done|]. rewrite app_nil_r, yielded_app, Y1. simpl.
  rewrite payload_from_default in D1.
  unfold Sse.emit, Sse.closes, Sse.quiet in *. rewrite D1.
  destruct (payload r) as [v|].
  - destruct (truthy v) eqn:Hv; simpl; [done|]. by rewrite D1.
  - destruct (Sse.data ev) as [v|]; [rewrite Hq|]; simpl; by rewrite D1.
Qed.

Lemma for_lines_records ev rs :
  Forall (Forall is_field) rs → quiet ev →
  ∃ tr ev', for_lines ev (concat (map (λ r, r ++ [""]) rs)) = (tr, Some ev')
            ∧ Sse.yielded tr = concat (map emit rs) ∧ quiet ev'.
Proof.
  intros H. revert ev. induction H as [|r rs Hr _ IH]; intros ev Hq.
  - by exists [], ev.
  - destruct (for_lines_record ev r Hr Hq) as (tr & ev1 & E1 & Y1 & Q1).
    destruct (IH ev1 Q1) as (tr' & ev2 & E2 & Y2 & Q2).
    exists (tr ++ tr'), ev2. simpl. rewrite for_lines_app, E1, E2.
    by rewrite yielded_app, Y1, Y2.
Qed.

Lemma on_chunk_eq buffer value :
  on_chunk buffer value =
  match for_lines Sse.empty (Sse.lines_of (buffer +:+ value)) with
  | (tr, None) => (tr, None)
  | (tr, Some _) => (tr, Some (Sse.rest_of (buffer +:+ value)))
  end.
Proof. reflexivity. Qed.

Lemma read_loop_app buffer pre post :
  read_loop buffer (pre ++ post) =
  match read_loop buffer pre with
  | (tr, Sse.Sentinel) => (tr, Sse.Sentinel)
  | (tr, Sse.ReaderDone b) =>
      let '(tr', e) := read_loop b post in (tr ++ tr', e)
  end.
Proof.
  revert buffer. induction pre as [|c pre IH]; intros buffer; simpl.
  - by destruct (read_loop buffer post).
  - destruct (on_chunk buffer c) as [tr [b|]]; [|done]. rewrite IH.
    destruct (read_loop b pre) as [tr1 [b1|]]; [|done].
    destruct (read_loop b1 post). by rewrite app_assoc.
Qed.

(** A chunk that ends with a record leaves nothing in [buffer]. *)
Lemma on_chunk_aligned rs :
  Forall (Forall is_field) rs →
  ∃ tr, on_chunk "" (Sse.wires rs) = (tr, Some "")
        ∧ Sse.yielded tr = concat (map emit rs).
Proof.
  intros H. rewrite on_chunk_eq, sapp_nil. unfold Sse.wires.
  rewrite <- (sapp_empty_r (Sse.unlines _)).
  assert (Forall is_line (concat (map (λ r, r ++ [""]) rs))) as Hl.
  { apply Forall_concat, Forall_fmap.
    eapply Forall_impl; [exact H|]. intros r Hr. simpl.
    apply Forall_app. split; [|by repeat constructor].
    eapply Forall_impl; [exact Hr|]. intros l. unfold Sse.field_line.
    rewrite !andb_true_iff. tauto. }
  rewrite lines_of_unlines, rest_of_unlines by done.
  rewrite lines_of_empty, rest_of_empty, app_nil_r.
  destruct (for_lines_records Sse.empty rs H I) as (tr & ev & -> & Y & _).
  eauto.
Qed.

Lemma read_loop_aligned chunks :
  Forall (Forall (Forall is_field)) chunks →
  ∃ tr, read_loop "" (map Sse.wires chunks) = (tr, Sse.ReaderDone "")
        ∧ Sse.yielded tr = concat (map emit (concat chunks)).
Proof.
  induction 1 as [|rs chunks Hrs _ (tr' & E' & Y')]; simpl.
  - by exists [].
  - destruct (on_chunk_aligned rs Hrs) as (tr & -> & Y). rewrite E'.
    exists (tr ++ tr'). split; [done|].
    by rewrite yielded_app, Y, Y', map_app, concat_app.
Qed.

Lemma events_aligned chunks :
  Forall (Forall (Forall is_field)) chunks →
  events (map Sse.wires chunks) = concat (map emit (concat chunks)).
Proof.
  intros H. unfold Sse.events, Sse.streamAgent.
  by destruct (read_loop_aligned chunks H) as (tr & -> & <-).
Qed.

Lemma for_lines_done ev l1 l2 :
  for_lines ev (l1 ++ "data: [DONE]" :: l2) = ((for_lines ev l1).1, None).
Proof.
  rewrite for_lines_app.
  destruct (for_lines ev l1) as [tr [ev'|]]; [|done].
  simpl. by rewrite app_nil_r.
Qed.

Lemma data_line_field s :
  Sse.free Js.LF s = true → s ≠ "[DONE]" →
  Sse.field_line (Sse.data_line s) = true.
Proof.
  intros Hs Hd. unfold Sse.field_line, Sse.data_line.
  rewrite !andb_true_iff, !negb_true_iff. split; [split|].
  - done.
  - done.
  - apply String.eqb_neq. intros E. apply Hd.
    by apply (inj (String.append "data: ")) in E.
Qed.

Lemma on_line_data ev s :
  s ≠ "[DONE]" →
  on_line ev (Sse.data_line s) =
  match JSON_parse s with
  | Some v => ([], Some {| Sse.event := Sse.event ev; Sse.data := Some v;
                           Sse.id := Sse.id ev |})
  | None => ([Sse.Warn s], Some ev)
  end.
Proof.
  intros Hd. unfold Sse.on_line, Sse.data_line.
  change (Js.startsWith ("data: " +:+ s) "event: ") with false.
  change (Js.startsWith ("data: " +:+ s) "data: ") with true.
  change (Js.slice 6 ("data: " +:+ s)) with s. cbv iota.
  apply String.eqb_neq in Hd. by rewrite Hd.
Qed.

Lemma payload_data_lines acc ss s v :
  last ss = Some s → JSON_parse s = Some v →
  payload_from acc (Sse.data_line <$> ss) = Some v.
Proof.
  intros Hl Hv. apply last_Some in Hl as [ss' ->].
  unfold Sse.payload_from. rewrite fmap_app, foldl_app. simpl.
  change (Js.startsWith (Sse.data_line s) "data: ") with true.
  change (Js.slice 6 (Sse.data_line s)) with s. cbv iota. by rewrite Hv.
Qed.

Lemma unlines_app l1 l2 :
  Sse.unlines (l1 ++ l2) = Sse.unlines l1 +:+ Sse.unlines l2.
Proof.
  induction l1 as [|l l1 IH]; [done|].
  change (Sse.unlines ((l :: l1) ++ l2))
    with (l +:+ Sse.nl +:+ Sse.unlines (l1 ++ l2)).
  change (Sse.unlines (l :: l1)) with (l +:+ Sse.nl +:+ Sse.unlines l1).
  by rewrite IH, !sapp_assoc.
Qed.

Lemma unlines_one l : Sse.unlines [l] = l +:+ Sse.nl.
Proof. reflexivity. Qed.

(** A chunk in which a complete [data: [DONE]] line follows the lines
    [l1]: the [for] loop returns there. *)
Lemma on_chunk_done buffer value l1 rest :
  Forall is_line l1 →
  buffer +:+ value = Sse.unlines l1 +:+ "data: [DONE]" +:+ Sse.nl +:+ rest →
  on_chunk buffer value = ((for_lines Sse.empty l1).1, None).
Proof.
  intros Hl E.
  assert (buffer +:+ value
          = Sse.unlines (l1 ++ ["data: [DONE]"]) +:+ rest) as E1.
  { by rewrite unlines_app, unlines_one, E, !sapp_assoc. }
  rewrite on_chunk_eq, E1.
  rewrite lines_of_unlines
    by (apply Forall_app; split; [done | by repeat constructor]).
  rewrite <- app_assoc.
  change (["data: [DONE]"] ++ Sse.lines_of rest)
    with ("data: [DONE]" :: Sse.lines_of rest).
  by rewrite for_lines_done.
Qed.

(** A chunk with and without a complete unparsable [data: ] line that
    starts at a line boundary: same yields, same continuation. *)
Lemma on_chunk_skip buffer a l1 s z :
  buffer +:+ a = Sse.unlines l1 → Forall is_line l1 →
  Sse.free Js.LF s = true → s ≠ "[DONE]" → JSON_parse s = None →
  ∃ tr tr' r,
    on_chunk buffer (a +:+ Sse.data_line s +:+ Sse.nl +:+ z) = (tr, r)
    ∧ on_chunk buffer (a +:+ z) = (tr', r)
    ∧ Sse.yielded tr = Sse.yielded tr'.
Proof.
  intros E Hl Hs Hd Hp.
  assert (buffer +:+ (a +:+ Sse.data_line s +:+ Sse.nl +:+ z)
          = Sse.unlines (l1 ++ [Sse.data_line s]) +:+ z) as E1.
  { by rewrite unlines_app, unlines_one, <- E, !sapp_assoc. }
  assert (buffer +:+ (a +:+ z) = Sse.unlines l1 +:+ z) as E2.
  { by rewrite <- E, sapp_assoc. }
  rewrite !on_chunk_eq, E1, E2.
  assert (is_line (Sse.data_line s)) as Hdl by done.
  rewrite !lines_of_unlines, !rest_of_unlines
    by (try apply Forall_app; try split; try done; by repeat constructor).
  rewrite <- app_assoc, !for_lines_app.
  destruct (for_lines Sse.empty l1) as [t1 [ev1|]]; [|by eexists _, _, _].
  simpl. rewrite (on_line_data _ _ Hd), Hp.
  destruct (for_lines ev1 (Sse.lines_of z)) as [t2 [ev2|]];
    eexists _, _, _; (split; [done|]; split; [done|]);
    by rewrite !yielded_app.
Qed.

(** C5 (amended).  A line yields exactly when it is blank and the record
    under construction holds a parsed payload that is truthy, and then it
    yields that payload.  So, in a stream whose chunks end at record
    boundaries, every record closed by a blank line contributes its last
    successfully parsed [data] payload when that payload is truthy, and
    nothing when it has no parsed payload or a falsy one ([null], [false],
    [0], the empty string). *)
Theorem record_yielded_iff_truthy_payload
    (chunks : list (list (list string))) :
  Forall (Forall (Forall is_field)) chunks →
  (∀ ev l, Sse.yielded (on_line ev l).1
           = if String.eqb l "" then closes ev else [])
  ∧ events (map Sse.wires chunks) = concat (map emit (concat chunks))
  ∧ (streamAgent (map Sse.wires chunks)).2 = Sse.ReaderDone "".
Proof.
  intros H. split; [apply on_line_yielded|].
  split; [by apply events_aligned|].
  unfold Sse.streamAgent.
  by destruct (read_loop_aligned chunks H) as (tr & -> & _).
Qed.

(** C6.  When a complete [data: [DONE]] line is read, the generator
    returns: whatever the record under construction holds, whatever follows
    the line in the chunk ([rest]) and whatever chunks the reader would
    still deliver ([post]), nothing more is yielded and the generator ends
    normally. *)
Theorem done_sentinel_stops_decoding pre tr0 b c l1 rest post :
  streamAgent pre = (tr0, Sse.ReaderDone b) →
  Forall is_line l1 →
  b +:+ c = Sse.unlines l1 +:+ "data: [DONE]" +:+ Sse.nl +:+ rest →
  (∀ ev, on_line ev "data: [DONE]" = ([], None))
  ∧ streamAgent (pre ++ c :: post)
    = (tr0 ++ (for_lines Sse.empty l1).1, Sse.Sentinel).
Proof.
  intros Hpre Hl E. split; [done|].
  unfold Sse.streamAgent in *. rewrite read_loop_app, Hpre. simpl.
  by rewrite (on_chunk_done _ _ _ _ Hl E).
Qed.

(** A [data: ] line that does not parse leaves the payload of its record
    as it is. *)
Lemma emit_malformed r1 s r2 :
  JSON_parse s = None →
  emit (r1 ++ Sse.data_line s :: r2) = emit (r1 ++ r2).
Proof.
  intros Hp. unfold Sse.emit, Sse.payload, Sse.payload_from.
  rewrite !foldl_app. simpl.
  change (Js.startsWith (Sse.data_line s) "data: ") with true.
  change (Js.slice 6 (Sse.data_line s)) with s. cbv iota. by rewrite Hp.
Qed.

(** Records of one [data: ] line each, whose payloads parse to truthy
    values: every one is emitted. *)
Lemma emit_well_formed goods vs :
  Forall2 (λ g v, Sse.free Js.LF g = true ∧ g ≠ "[DONE]"
                  ∧ JSON_parse g = Some v ∧ truthy v = true) goods vs →
  Forall (Forall is_field) ((λ g, [Sse.data_line g]) <$> goods)
  ∧ concat (map emit ((λ g, [Sse.data_line g]) <$> goods)) = vs.
Proof.
  induction 1 as [|g v goods vs (Hf & Hd & Hp & Ht) _ [IH1 IH2]]; [done|].
  split.
  - constructor; [|done]. constructor; [|done]. by apply data_line_field.
  - rewrite fmap_cons. simpl. rewrite IH2. f_equal.
    unfold Sse.emit, Sse.payload, Sse.payload_from. simpl.
    change (Js.startsWith (Sse.data_line g) "data: ") with true.
    change (Js.slice 6 (Sse.data_line g)) with g. cbv iota.
    by rewrite Hp, Ht.
Qed.

(** C7 (amended).  A complete [data: ] line whose payload [JSON.parse]
    rejects is dropped with a warning: it changes nothing in the record
    under construction and does not end the loop; whatever the chunking,
    the generator yields the same records and ends the same way as on the
    stream without that line.  And in a stream whose chunks end at record
    boundaries the records are all emitted, each with its last parsed
    payload when that is truthy: the record that holds the line as if the
    line were not there, and every well-formed record after it with its
    value. *)
Theorem malformed_data_line_is_skipped s :
  Sse.free Js.LF s = true → s ≠ "[DONE]" → JSON_parse s = None →
  (∀ ev, on_line ev (Sse.data_line s) = ([Sse.Warn s], Some ev))
  ∧ (∀ pre tr0 b a l1 z post,
       streamAgent pre = (tr0, Sse.ReaderDone b) →
       b +:+ a = Sse.unlines l1 → Forall is_line l1 →
       events (pre ++ (a +:+ Sse.data_line s +:+ Sse.nl +:+ z) :: post)
       = events (pre ++ (a +:+ z) :: post)
       ∧ (streamAgent
            (pre ++ (a +:+ Sse.data_line s +:+ Sse.nl +:+ z) :: post)).2
         = (streamAgent (pre ++ (a +:+ z) :: post)).2)
  ∧ (∀ chunks1 rs1 r1 r2 goods vs chunks2,
       Forall (Forall (Forall is_field)) chunks1 →
       Forall (Forall is_field) rs1 →
       Forall is_field r1 → Forall is_field r2 →
       Forall2 (λ g v, Sse.free Js.LF g = true ∧ g ≠ "[DONE]"
                       ∧ JSON_parse g = Some v ∧ truthy v = true)
         goods vs →
       Forall (Forall (Forall is_field)) chunks2 →
       (streamAgent
          (map Sse.wires chunks1
           ++ Sse.wires (rs1 ++ [r1 ++ Sse.data_line s :: r2]
                         ++ ((λ g, [Sse.data_line g]) <$> goods))
              :: map Sse.wires chunks2)).2
       = Sse.ReaderDone ""
       ∧ events
           (map Sse.wires chunks1
            ++ Sse.wires (rs1 ++ [r1 ++ Sse.data_line s :: r2]
                          ++ ((λ g, [Sse.data_line g]) <$> goods))
               :: map Sse.wires chunks2)
         = concat (map emit (concat chunks1 ++ rs1))
           ++ emit (r1 ++ r2) ++ vs
           ++ concat (map emit (concat chunks2))).
Proof.
  intros Hs Hd Hp.
  split; [intros ev; by rewrite (on_line_data _ _ Hd), Hp|]. split.
  - intros pre tr0 b a l1 z post Hpre E Hl.
    unfold Sse.events, Sse.streamAgent in *. rewrite !read_loop_app, Hpre.
    simpl.
    destruct (on_chunk_skip b a l1 s z E Hl Hs Hd Hp)
      as (tr & tr' & r & -> & -> & Y).
    destruct r as [b'|]; simpl; [|by rewrite !yielded_app, Y].
    destruct (read_loop b' post) as [t e]. simpl.
    by rewrite !yielded_app, Y.
  - intros chunks1 rs1 r1 r2 goods vs chunks2 H1 Hr1 Hf1 Hf2 Hg H2.
    destruct (emit_well_formed goods vs Hg) as [Hgf Hge].
    assert (Forall (Forall (Forall is_field))
              (chunks1
               ++ (rs1 ++ [r1 ++ Sse.data_line s :: r2]
                   ++ ((λ g, [Sse.data_line g]) <$> goods)) :: chunks2))
      as Hall.
    { apply Forall_app. split; [done|]. constructor; [|done].
      apply Forall_app. split; [done|]. constructor; [|done].
      apply Forall_app. split; [done|]. constructor; [|done].
      by apply data_line_field. }
    change (map Sse.wires chunks1 ++ ?c :: map Sse.wires chunks2)
      with (map Sse.wires chunks1
            ++ map Sse.wires
                 ((rs1 ++ [r1 ++ Sse.data_line s :: r2]
                   ++ ((λ g, [Sse.data_line g]) <$> goods)) :: chunks2)).
    rewrite <- map_app. split.
    + unfold Sse.streamAgent.
      by destruct (read_loop_aligned _ Hall) as (tr & -> & _).
    + rewrite (events_aligned _ Hall), concat_app. simpl.
      rewrite !map_app, !concat_app. simpl.
      by rewrite (emit_malformed _ _ _ Hp), Hge, <- !app_assoc.
Qed.

(** C10 (amended).  A record of several [data: ] lines that each parse,
    delivered in one chunk among other whole records, yields exactly one
    event when the value of its last line is truthy: that value.  The
    earlier lines are overwritten. *)
Theorem last_data_line_wins chunks1 rs1 ss vs v rs2 chunks2 :
  Forall (Forall (Forall is_field)) chunks1 →
  Forall (Forall is_field) rs1 →
  Forall (Forall is_field) rs2 →
  Forall (Forall (Forall is_field)) chunks2 →
  Forall (λ s, Sse.free Js.LF s = true ∧ s ≠ "[DONE]") ss →
  Forall2 (λ s v, JSON_parse s = Some v) ss vs →
  last vs = Some v → truthy v = true →
  events (map Sse.wires chunks1
          ++ Sse.wires (rs1 ++ [Sse.data_line <$> ss] ++ rs2)
             :: map Sse.wires chunks2)
  = concat (map emit (concat chunks1 ++ rs1))
    ++ [v] ++ concat (map emit (rs2 ++ concat chunks2)).
Proof.
  intros H1 Hr1 Hr2 H2 Hss Hvs Hv Ht.
  assert (Forall is_field (Sse.data_line <$> ss)) as Hf.
  { apply Forall_fmap. eapply Forall_impl; [exact Hss|].
    intros s [? ?]. by apply data_line_field. }
  assert (emit (Sse.data_line <$> ss) = [v]) as Hemit.
  { apply last_Some in Hv as [vs' ->].
    apply Forall2_app_inv_r in Hvs as (ss' & sl & _ & Hsl & ->).
    apply Forall2_cons_inv_r in Hsl as (s & sl' & Hs & Hnil & ->).
    apply Forall2_nil_inv_r in Hnil as ->.
    unfold Sse.emit, Sse.payload.
    rewrite (payload_data_lines _ _ s v); [by rewrite Ht| |done].
    by rewrite last_snoc. }
  change (map Sse.wires chunks1 ++ ?c :: map Sse.wires chunks2)
    with (map Sse.wires chunks1
          ++ map Sse.wires ((rs1 ++ [Sse.data_line <$> ss] ++ rs2) :: chunks2)).
  rewrite <- map_app, events_aligned.
  - rewrite concat_app. simpl.
    rewrite !map_app, !concat_app. simpl.
    by rewrite Hemit, <- !app_assoc.
  - apply Forall_app. split; [done|]. constructor; [|done].
    apply Forall_app. split; [done|]. by constructor.
Qed.

End DecoderFacts.

(** C1.  The decoder on the example stream of the specification, whole and
    split between the two line feeds that end its first record: whole, both
    records are yielded; split there, the first record is lost, because the
    record under construction is reset at every chunk. *)
Theorem chunk_split_inside_record_loses_it :
  Sample.events [Sample.record_a +:+ Sample.record_b +:+ Sample.done]
  = [Sample.parsed1 97 1; Sample.parsed1 98 2]
  ∧ Sample.events
      [Sse.unlines [Sse.data_line (Sample.object1 "a" "1")];
       Sse.nl +:+ Sample.record_b +:+ Sample.done]
    = [Sample.parsed1 98 2]
  ∧ Sse.unlines [Sse.data_line (Sample.object1 "a" "1")]
    +:+ Sse.nl +:+ Sample.record_b +:+ Sample.done
    = Sample.record_a +:+ Sample.record_b +:+ Sample.done.
Proof. by vm_compute. Qed.

(** C5, as stated, fails: a record closed by a blank line whose [data] field
    parsed successfully, to the number [0], is not yielded. *)
Lemma parsed_falsy_payload_not_yielded :
  Sse.payload Json.parse ["data: 0"] = Some (Sample.number 0)
  ∧ Sample.streamAgent [Sse.wire ["data: 0"]] = ([], Sse.ReaderDone "").
Proof. by vm_compute. Qed.

(** Two chunks of two records each: a truthy payload, a falsy one, an
    unparsable one, and two payloads of which the last wins. *)
Lemma record_yielded_iff_truthy_payload_witness :
  let chunks :=
    [ [ ["data: [1]"]; ["event: e"; "data: 0"] ];
      [ ["data: {bad"]; ["id: 7"; "data: [2]"; "data: [3]"] ] ] in
  Forall (Forall (Forall (λ l, Sse.field_line l = true))) chunks
  ∧ Sample.events (map Sse.wires chunks)
    = [Json.Array [Sample.number 1]; Json.Array [Sample.number 3]].
Proof.
  assert (Forall (Forall (Forall (λ l, Sse.field_line l = true)))
    [ [ ["data: [1]"]; ["event: e"; "data: 0"] ];
      [ ["data: {bad"]; ["id: 7"; "data: [2]"; "data: [3]"] ] ]) as H
    by (repeat constructor).
  split; [exact H|].
  unfold Sample.events.
  rewrite (proj1 (proj2 (record_yielded_iff_truthy_payload
                           Json.parse Json.truthy _ H))).
  reflexivity.
Defined.

(** The sentinel in the middle of the second chunk, after a record that
    started in the first: the records before it are yielded, nothing after
    it. *)
Lemma done_sentinel_stops_decoding_witness :
  Sample.streamAgent
    (["data: [1]" +:+ Sse.nl +:+ Sse.nl +:+ "da"]
     ++ ("ta: [2]" +:+ Sse.nl +:+ Sse.nl +:+ "data: [3]" +:+ Sse.nl
         +:+ "data: [DONE]" +:+ Sse.nl +:+ Sse.nl +:+ "data: [4]" +:+ Sse.nl
         +:+ Sse.nl)
        :: ["data: [5]" +:+ Sse.nl +:+ Sse.nl])
  = ([Sse.Yield (Json.Array [Sample.number 1]);
      Sse.Yield (Json.Array [Sample.number 2])], Sse.Sentinel).
Proof.
  pose proof (done_sentinel_stops_decoding Json.parse Json.truthy
    ["data: [1]" +:+ Sse.nl +:+ Sse.nl +:+ "da"]
    [Sse.Yield (Json.Array [Sample.number 1])] "da"
    ("ta: [2]" +:+ Sse.nl +:+ Sse.nl +:+ "data: [3]" +:+ Sse.nl
     +:+ "data: [DONE]" +:+ Sse.nl +:+ Sse.nl +:+ "data: [4]" +:+ Sse.nl
     +:+ Sse.nl)
    ["data: [2]"; ""; "data: [3]"]
    (Sse.nl +:+ "data: [4]" +:+ Sse.nl +:+ Sse.nl)
    ["data: [5]" +:+ Sse.nl +:+ Sse.nl]
    eq_refl ltac:(repeat constructor) eq_refl) as [_ H].
  exact H.
Defined.

(** C7, as stated, fails: after a line that does not parse, a well-formed
    record that a chunk boundary cuts before its closing blank line is not
    emitted; the same text in one chunk yields it. *)
Lemma well_formed_record_after_malformed_line_is_lost :
  Json.parse "{not valid}" = None
  ∧ Json.parse "[1]" = Some (Json.Array [Sample.number 1])
  ∧ Sample.streamAgent
      [Sse.wire [Sse.data_line "{not valid}"] +:+ "data: [1]" +:+ Sse.nl;
       Sse.nl]
    = ([Sse.Warn "{not valid}"], Sse.ReaderDone "")
  ∧ Sample.streamAgent
      [Sse.wire [Sse.data_line "{not valid}"] +:+ "data: [1]" +:+ Sse.nl
       +:+ Sse.nl]
    = ([Sse.Warn "{not valid}"; Sse.Yield (Json.Array [Sample.number 1])],
       Sse.ReaderDone "").
Proof. by vm_compute. Qed.

(** An unparsable line inside the second record of a stream of four
    records, three of them in one chunk: all four records are yielded. *)
Lemma malformed_data_line_is_skipped_witness :
  Sample.events
    (map Sse.wires [[["data: [1]"]]]
     ++ Sse.wires ([] ++ [["data: [2]"] ++ Sse.data_line "{not valid}" :: []]
                   ++ ((λ g, [Sse.data_line g]) <$> ["[3]"]))
        :: map Sse.wires [[["data: [4]"]]])
  = [Json.Array [Sample.number 1]; Json.Array [Sample.number 2];
     Json.Array [Sample.number 3]; Json.Array [Sample.number 4]].
Proof.
  destruct (malformed_data_line_is_skipped Json.parse Json.truthy
              "{not valid}" eq_refl ltac:(discriminate) eq_refl)
    as (_ & _ & H).
  destruct (H [[["data: [1]"]]] [] ["data: [2]"] [] ["[3]"]
              [Json.Array [Sample.number 3]] [[["data: [4]"]]]
              ltac:(repeat constructor) ltac:(repeat constructor)
              ltac:(repeat constructor) ltac:(repeat constructor)
              ltac:(repeat constructor; discriminate)
              ltac:(repeat constructor)) as [_ E].
  unfold Sample.events. etransitivity; [exact E|]. reflexivity.
Defined.

(** C10, as stated, fails: a record of two [data: ] lines that both parse,
    the last one to the number [0], yields no event at all. *)
Lemma falsy_last_data_line_yields_nothing :
  Json.parse "1" = Some (Sample.number 1)
  ∧ Json.parse "0" = Some (Sample.number 0)
  ∧ Sample.streamAgent [Sse.wire [Sse.data_line "1"; Sse.data_line "0"]]
    = ([], Sse.ReaderDone "").
Proof. by vm_compute. Qed.

(** A record with the payloads [7], [0] and [[8]], between other records
    and chunks: it yields [[8]] once. *)
Lemma last_data_line_wins_witness :
  Sample.events
    (map Sse.wires [[["data: [1]"]]]
     ++ Sse.wires ([["data: [2]"]]
                   ++ [Sse.data_line <$> ["7"; "0"; "[8]"]]
                   ++ [["data: [3]"]])
        :: map Sse.wires [[["data: [4]"]]])
  = [Json.Array [Sample.number 1]; Json.Array [Sample.number 2];
     Json.Array [Sample.number 8];
     Json.Array [Sample.number 3]; Json.Array [Sample.number 4]].
Proof.
  unfold Sample.events.
  rewrite (last_data_line_wins Json.parse Json.truthy
    [[["data: [1]"]]] [["data: [2]"]] ["7"; "0"; "[8]"]
    [Sample.number 7; Sample.number 0; Json.Array [Sample.number 8]]
    (Json.Array [Sample.number 8]) [["data: [3]"]] [[["data: [4]"]]]
    ltac:(repeat constructor) ltac:(repeat constructor)
    ltac:(repeat constructor) ltac:(repeat constructor)
    ltac:(repeat constructor; discriminate)
    ltac:(repeat constructor) eq_refl eq_refl).
  reflexivity.
Defined.

(** ** Pagination *)

Section PaginationFacts.

Import Pagination.
Local Open Scope Z_scope.

Lemma totalPages_bounds (total limit : Z) :
  0 < limit →
  limit * (totalPages total limit - 1) < total ≤ limit * totalPages total limit.
Proof.
  intros Hl. unfold totalPages.
  pose proof (Z.div_mod (- total) limit ltac:(lia)) as E.
  pose proof (Z.mod_pos_bound (- total) limit Hl) as B.
  nia.
Qed.

Lemma currentPage_bounds (offset limit : Z) :
  0 < limit →
  limit * (currentPage offset limit - 1) ≤ offset
  < limit * currentPage offset limit.
Proof.
  intros Hl. unfold currentPage.
  pose proof (Z.div_mod offset limit ltac:(lia)) as E.
  pose proof (Z.mod_pos_bound offset limit Hl) as B.
  nia.
Qed.


(** C3 (amended).  For [limit > 0], [offset >= 0] and [total >= 0] the
    current page is at least [1]; it is at most [max(total_pages, 1)]
    exactly when [offset < limit * max(total_pages, 1)], which holds
    whenever [offset = 0] or [offset < total]. *)
Theorem current_page_within_pages_iff (limit offset total : Z) :
  0 < limit → 0 ≤ offset → 0 ≤ total →
  1 ≤ currentPage offset limit
  ∧ (currentPage offset limit ≤ Z.max (totalPages total limit) 1
     ↔ offset < limit * Z.max (totalPages total limit) 1)
  ∧ (offset < Z.max total 1 →
     currentPage offset limit ≤ Z.max (totalPages total limit) 1).
Proof.
  intros Hl Ho Ht.
  pose proof (currentPage_bounds offset limit Hl) as Bc.
  pose proof (totalPages_bounds total limit Hl) as Bt.
  split; [nia|]. split; [split; intros H; nia|]. intros H. nia.
Qed.


Lemma mod_add_limit (x l : Z) : 0 < l → (x + l) mod l = x mod l.
Proof.
  intros Hl. rewrite <- (Z.mul_1_l l) at 1. apply Z.mod_add. lia.
Qed.

Lemma mod_sub_limit (x l : Z) : 0 < l → (x - l) mod l = x mod l.
Proof.
  intros Hl. replace (x - l) with (x + (-1) * l) by lia.
  apply Z.mod_add. lia.
Qed.

Lemma mod_max_sub_limit (x l : Z) :
  0 < l → x mod l = 0 → Z.max 0 (x - l) mod l = 0.
Proof.
  intros Hl Hx.
  destruct (Z.max_spec 0 (x - l)) as [[_ ->]|[_ ->]];
    [by rewrite mod_sub_limit | by apply Z.mod_0_l; lia].
Qed.


End PaginationFacts.

(** C3, as stated, fails: an offset beyond the total puts the current page
    after the last one. *)
Lemma current_page_beyond_total_pages :
  (0 < 50 ∧ 0 ≤ 100 ∧ 0 ≤ 10)%Z
  ∧ Pagination.currentPage 100 50 = 3%Z
  ∧ Pagination.totalPages 10 50 = 1%Z
  ∧ ¬ (Pagination.currentPage 100 50
       ≤ Z.max (Pagination.totalPages 10 50) 1)%Z.
Proof. repeat split; try done. vm_compute. by intros H. Qed.

(** The third of three pages. *)
Lemma current_page_within_pages_iff_witness :
  (0 < 50 ∧ 0 ≤ 100 ∧ 0 ≤ 120)%Z
  ∧ (1 ≤ Pagination.currentPage 100 50)%Z
  ∧ (Pagination.currentPage 100 50
     ≤ Z.max (Pagination.totalPages 120 50) 1)%Z.
Proof.
  split; [lia|].
  destruct (current_page_within_pages_iff 50 100 120
              ltac:(lia) ltac:(lia) ltac:(lia)) as (H1 & _ & H3).
  split; [exact H1|]. apply H3. lia.
Defined.



(** ** The memory list response *)

Section MemoryFacts.

Context {MemoryEntry ConversationInfo : Type}.

#[local] Abbreviation Response :=
  (Memory.MemoryResponse (MemoryEntry:=MemoryEntry)
     (ConversationInfo:=ConversationInfo)).




End MemoryFacts.



(** C9.  The browser holds the entries 1 and 2 and the backend serves the
    entries 2 and 3 at offset 2.  [loadMore] alone appends them: nothing
    removed, merged or moved, the duplicate kept, the offset advanced by
    the limit.  But the click in the open dialog does not end there: the
    offset is a dependency of [loadMemory], the effect runs [loadMemory]
    at the new offset, and the browser is left with the entries 2 and 3
    only; the entries loaded before are gone.  The same with a backend
    that answers in the legacy shape. *)
Theorem load_more_list_is_lost_to_the_reload :
  let s := {| Memory.browser_entries := [1; 2];
              Memory.pagination := {| Pagination.limit := 2;
                                      Pagination.offset := 0;
                                      Pagination.total := 5 |};
              Memory.loading := false |} in
  Memory.loadMore Sample.backend s
  = {| Memory.browser_entries := [1; 2; 2; 3];
       Memory.pagination := {| Pagination.limit := 2;
                               Pagination.offset := 2;
                               Pagination.total := 5 |};
       Memory.loading := false |}
  ∧ Memory.browser_entries (Memory.loadMore SampleView.legacy_backend s)
    = [1; 2; 2; 3]
  ∧ MemoryBrowser.loadMoreAndEffect true Sample.backend Sample.backend s
    = {| Memory.browser_entries := [2; 3];
         Memory.pagination := {| Pagination.limit := 2;
                                 Pagination.offset := 2;
                                 Pagination.total := 3 |};
         Memory.loading := false |}
  ∧ Memory.browser_entries
      (MemoryBrowser.loadMoreAndEffect true SampleView.legacy_backend
         SampleView.legacy_backend s)
    = [2; 3].
Proof. by vm_compute. Qed.

(** ** The trace tree builder *)

Section TraceFacts.

Import Trace.

Implicit Types (spans : list UITraceSpan) (m : gmap string node).
Implicit Types (s p c : UITraceSpan) (k : string) (n : node).

(** *** The first pass *)

Lemma register_dom spans m0 k :
  is_Some (foldl register m0 spans !! k)
  ↔ k ∈ id <$> spans ∨ is_Some (m0 !! k).
Proof.
  revert m0. induction spans as [|s spans IH]; intros m0; simpl.
  - rewrite elem_of_nil. tauto.
  - rewrite IH. unfold register.
    rewrite lookup_insert_is_Some, elem_of_cons.
    destruct (decide (id s = k)); intuition (subst; auto).
Qed.

Lemma register_lookup spans s :
  NoDup (id <$> spans) → s ∈ spans →
  foldl register ∅ spans !! id s = Some {| span := s; children := [] |}.
Proof.
  induction spans as [|x spans IH] using rev_ind; [by rewrite elem_of_nil|].
  rewrite fmap_app, NoDup_app, foldl_snoc, elem_of_app. simpl.
  intros (Hnd & Hx & _) [Hs | ->%list_elem_of_singleton].
  - unfold register. rewrite lookup_insert_ne; [by apply IH|].
    intros E. apply (Hx (id s)); [by apply list_elem_of_fmap_2|].
    rewrite E. apply list_elem_of_singleton. done.
  - unfold register. by rewrite lookup_insert_eq.
Qed.

Lemma register_span spans k n :
  foldl register ∅ spans !! k = Some n →
  id (span n) = k ∧ span n ∈ spans ∧ children n = [].
Proof.
  induction spans as [|x spans IH] using rev_ind; [done|].
  rewrite foldl_snoc. unfold register at 1.
  destruct (decide (id x = k)) as [<-|Hne].
  - rewrite lookup_insert_eq. intros [= <-]. simpl.
    rewrite elem_of_app, list_elem_of_singleton. auto.
  - rewrite lookup_insert_ne by done. intros H.
    destruct (IH H) as (? & ? & ?). rewrite elem_of_app. auto.
Qed.

(** *** The second pass *)

Lemma parent_in_ext m m' s :
  (∀ k, is_Some (m' !! k) ↔ is_Some (m !! k)) →
  parent_in m' s = parent_in m s.
Proof.
  intros H. unfold parent_in. destruct (parent_id s) as [p|]; [|done].
  by rewrite (bool_decide_ext _ _ (H p)).
Qed.

Lemma attach_ext m m' done k n :
  (∀ k, is_Some (m' !! k) ↔ is_Some (m !! k)) →
  attach m' done k n = attach m done k n.
Proof.
  intros H. unfold attach. f_equal. f_equal. f_equal.
  apply list_filter_iff. intros s. by rewrite (parent_in_ext m m' s H).
Qed.

Lemma link_fold (done : list UITraceSpan) m r :
  ∃ m', foldl link (m, r) done
        = (m', r ++ (id <$> filter (λ s, parent_in m s = None) done))
        ∧ ∀ k, m' !! k = attach m done k <$> m !! k.
Proof.
  revert m r. induction done as [|s done IH]; intros m r; simpl.
  - exists m. rewrite app_nil_r. split; [done|]. intros k.
    destruct (m !! k) as [[]|]; simpl; [|done].
    unfold attach. simpl. by rewrite app_nil_r.
  - destruct (parent_in m s) as [p|] eqn:Hp.
    + assert (∀ k, is_Some (alter (push (id s)) p m !! k)
                   ↔ is_Some (m !! k)) as Hdom.
      { intros k. apply lookup_alter_is_Some. }
      destruct (IH (alter (push (id s)) p m) r) as (m' & -> & Hm').
      exists m'. split.
      * f_equal. f_equal. f_equal. rewrite filter_cons_False by congruence.
        apply list_filter_iff. intros x.
        by rewrite (parent_in_ext _ _ x Hdom).
      * intros k. rewrite Hm'.
        destruct (decide (p = k)) as [<-|Hne].
        -- rewrite lookup_alter_eq. destruct (m !! p) as [n|]; [|done].
           simpl. f_equal. rewrite (attach_ext _ _ _ _ _ Hdom).
           unfold attach, push. simpl. f_equal.
           rewrite filter_cons_True by done. simpl.
           by rewrite <- app_assoc.
        -- rewrite lookup_alter_ne by done.
           destruct (m !! k) as [n|]; [|done]. simpl. f_equal.
           rewrite (attach_ext _ _ _ _ _ Hdom).
           unfold attach. f_equal. f_equal. f_equal.
           rewrite filter_cons_False; [done|]. congruence.
    + destruct (IH m (r ++ [id s])) as (m' & -> & Hm').
      exists m'. split.
      * f_equal. rewrite filter_cons_True by done. simpl.
        by rewrite <- app_assoc.
      * intros k. rewrite Hm'. destruct (m !! k) as [n|]; [|done].
        simpl. f_equal. unfold attach. f_equal. f_equal. f_equal.
        rewrite filter_cons_False; [done|]. congruence.
Qed.

Lemma parent_in_key spans s :
  parent_in (foldl register ∅ spans) s = parent_key spans s.
Proof.
  unfold parent_in, parent_key. destruct (parent_id s) as [p|]; [|done].
  rewrite (bool_decide_ext (is_Some (foldl register ∅ spans !! p))
             (p ∈ id <$> spans)); [done|].
  rewrite register_dom, lookup_empty, is_Some_alt. tauto.
Qed.

(** The objects and the roots at the end, in closed form. *)
Lemma build_spec spans :
  NoDup (id <$> spans) →
  ∃ m, build spans = (m, id <$> roots_of spans)
       ∧ (∀ s, s ∈ spans →
            m !! id s
            = Some {| span := s; children := id <$> kids_of spans s |})
       ∧ (∀ k n, m !! k = Some n → id (span n) = k ∧ span n ∈ spans).
Proof.
  intros Hnd. unfold build.
  destruct (link_fold spans (foldl register ∅ spans) []) as (m & -> & Hm).
  exists m. unfold roots_of, kids_of. split; [|split].
  - f_equal. simpl. f_equal. apply list_filter_iff. intros s.
    by rewrite parent_in_key.
  - intros s Hs. rewrite Hm, (register_lookup _ _ Hnd Hs). simpl.
    unfold attach. simpl. f_equal. f_equal. f_equal.
    apply list_filter_iff. intros c. by rewrite parent_in_key.
  - intros k n. rewrite Hm.
    destruct (foldl register ∅ spans !! k) as [n0|] eqn:E; [|done].
    simpl. intros [= <-]. simpl.
    destruct (register_span _ _ _ E) as (? & ? & _). done.
Qed.

End TraceFacts.

(** *** The forest read from the objects *)

Section Forest.

Import Trace.

Variable spans : list UITraceSpan.
Hypothesis Hnd : NoDup (id <$> spans).
Hypothesis Hac : acyclic spans.

Implicit Types (s p c x r : UITraceSpan) (t : SpanWithChildren).

#[local] Abbreviation att := (attached spans).

Lemma id_inj s s' : s ∈ spans → s' ∈ spans → id s = id s' → s = s'.
Proof.
  clear Hac. induction spans as [|a l IH]; [by rewrite elem_of_nil|].
  rewrite fmap_cons, NoDup_cons in Hnd. destruct Hnd as [Ha Hl].
  rewrite !elem_of_cons. intros [->|Hs] [->|Hs'] E; auto.
  - destruct Ha. rewrite E. by apply list_elem_of_fmap_2.
  - destruct Ha. rewrite <- E. by apply list_elem_of_fmap_2.
Qed.

Lemma NoDup_spans : NoDup spans.
Proof. by eapply NoDup_fmap_1. Qed.

Lemma parent_key_Some c k :
  parent_key spans c = Some k
  ↔ parent_id c = Some k ∧ k ≠ "" ∧ k ∈ id <$> spans.
Proof.
  unfold parent_key. destruct (parent_id c) as [q|]; [|naive_solver].
  destruct (String.eqb_spec q ""); simpl.
  - split; [done|]. intros ([= ->] & ? & _). done.
  - case_bool_decide; split; try done.
    + intros [= <-]. done.
    + by intros ([= <-] & _).
    + intros ([= <-] & _ & ?). done.
Qed.

Lemma parent_key_None c :
  parent_key spans c = None
  ↔ parent_id c = None ∨ parent_id c = Some ""
    ∨ ∃ q, parent_id c = Some q ∧ q ∉ id <$> spans.
Proof.
  unfold parent_key. destruct (parent_id c) as [q|]; [|naive_solver].
  destruct (String.eqb_spec q "") as [->|]; simpl; [naive_solver|].
  case_bool_decide; naive_solver.
Qed.

Lemma attached_parent_of c p : att c p → parent_of spans c p.
Proof.
  intros (Hc & Hp & Hk). apply parent_key_Some in Hk as (? & _). done.
Qed.

Lemma attached_fun c p p' : att c p → att c p' → p = p'.
Proof.
  intros (_ & Hp & Hk) (_ & Hp' & Hk'). apply id_inj; congruence.
Qed.

Lemma attached_acyclic s : ¬ tc att s s.
Proof.
  intros H. apply (Hac s). revert H. generalize s at 1 3. intros a H.
  induction H as [x y H|x y z H _ IH].
  - apply tc_once. by apply attached_parent_of.
  - eapply tc_l; [by apply attached_parent_of|done].
Qed.

Lemma elem_of_kids c p : p ∈ spans → c ∈ kids_of spans p ↔ att c p.
Proof.
  intros Hp. unfold kids_of, attached. rewrite list_elem_of_filter. tauto.
Qed.

Lemma parent_exists c k :
  parent_key spans c = Some k → ∃ p, p ∈ spans ∧ id p = k.
Proof.
  intros (_ & _ & H)%parent_key_Some.
  apply list_elem_of_fmap in H as (p & -> & Hp). eauto.
Qed.

Lemma attached_irrefl c : ¬ att c c.
Proof. intros H. by apply (attached_acyclic c), tc_once. Qed.

Lemma rtc_comparable x a b :
  rtc att x a → rtc att x b → rtc att a b ∨ rtc att b a.
Proof.
  intros Ha. revert b. induction Ha as [x|x y a Hxy Hya IH]; intros b Hb.
  - by left.
  - apply rtc_inv in Hb as [<-|(y' & Hxy' & Hyb)].
    + right. by eapply rtc_l.
    + rewrite <- (attached_fun _ _ _ Hxy Hxy') in Hyb. by apply IH.
Qed.

Lemma siblings x c1 c2 s :
  rtc att x c1 → rtc att x c2 → att c1 s → att c2 s → c1 = c2.
Proof.
  intros H1 H2 A1 A2.
  destruct (rtc_comparable x c1 c2 H1 H2) as [H|H];
    apply rtc_inv in H as [?|(y & Hy & Hr)]; try done.
  - rewrite (attached_fun _ _ _ Hy A1) in Hr.
    destruct (attached_acyclic s). eapply tc_rtc_l; [done|by apply tc_once].
  - rewrite (attached_fun _ _ _ Hy A2) in Hr.
    destruct (attached_acyclic s). eapply tc_rtc_l; [done|by apply tc_once].
Qed.

Lemma root_unique x r1 r2 :
  rtc att x r1 → rtc att x r2 →
  parent_key spans r1 = None → parent_key spans r2 = None → r1 = r2.
Proof.
  intros H1 H2 N1 N2.
  destruct (rtc_comparable x r1 r2 H1 H2) as [H|H];
    apply rtc_inv in H as [?|(y & (_ & _ & Hy) & _)]; congruence.
Qed.

Lemma rtc_attached_in x s : s ∈ spans → rtc att x s → x ∈ spans.
Proof. intros Hs H. destruct H as [|x y z (? & _)]; done. Qed.

(** No list of distinct spans is longer than the input. *)
Lemma bounded (l : list UITraceSpan) :
  NoDup l → (∀ x, x ∈ l → x ∈ spans) → (length l ≤ length spans)%nat.
Proof. intros Hl Hin. by apply submseteq_length, NoDup_submseteq. Qed.

(** Every span has an ancestor that is a root. *)
Lemma climb (fuel : nat) y (visited : list UITraceSpan) :
  y ∈ spans → NoDup (y :: visited) →
  (∀ v, v ∈ visited → v ∈ spans ∧ tc att v y) →
  (length spans ≤ length visited + fuel)%nat →
  ∃ r, rtc att y r ∧ r ∈ spans ∧ parent_key spans r = None.
Proof.
  revert y visited. induction fuel as [|fuel IH]; intros y visited Hy Hnd' Hv Hlen.
  - pose proof (bounded (y :: visited) Hnd') as B. simpl in B.
    assert (S (length visited) ≤ length spans)%nat; [|lia].
    apply B. intros x [->|Hx]%elem_of_cons; [done|]. by apply Hv.
  - destruct (parent_key spans y) as [q|] eqn:Hq; [|by exists y].
    destruct (parent_exists _ _ Hq) as (p & Hp & <-).
    assert (att y p) as Hyp by done.
    destruct (IH p (y :: visited)) as (r & Hr & ?); [done| | | |].
    + apply NoDup_cons. split; [|done].
      intros [->|Hpv]%elem_of_cons; [by apply (attached_irrefl y)|].
      destruct (Hv p Hpv) as [_ Htc].
      apply (attached_acyclic y). eapply tc_rtc_l; [|exact Htc].
      by apply rtc_once.
    + intros v [->|Hvv]%elem_of_cons; [split; [done|by apply tc_once]|].
      destruct (Hv v Hvv). split; [done|]. by eapply tc_r.
    + simpl. lia.
    + exists r. split; [by eapply rtc_l|done].
Qed.

Lemma root_ancestor x :
  x ∈ spans → ∃ r, rtc att x r ∧ r ∈ spans ∧ parent_key spans r = None.
Proof.
  intros Hx. apply (climb (length spans) x []); [done| |by intros ? ?%elem_of_nil|simpl; lia].
  apply NoDup_singleton.
Qed.

(** *** Reading the trees *)

Variable m : gmap string node.
Hypothesis Hm : ∀ s, s ∈ spans →
  m !! id s = Some {| span := s; children := id <$> kids_of spans s |}.

Lemma reify_S fuel s :
  s ∈ spans →
  reify (S fuel) m (id s)
  = Node s <$> mapM (reify fuel m) (id <$> kids_of spans s).
Proof. intros Hs. simpl. rewrite (Hm s Hs). simpl. by destruct (mapM _ _). Qed.

Lemma kids_in s c : c ∈ kids_of spans s → c ∈ spans.
Proof. unfold kids_of. rewrite list_elem_of_filter. tauto. Qed.

(** The fuel suffices: below [path], a chain of distinct ancestors, the
    tree is at most [length spans - length path] levels deep. *)
Lemma reify_fuel (fuel : nat) s (path : list UITraceSpan) :
  s ∈ spans → NoDup (s :: path) →
  (∀ x, x ∈ path → x ∈ spans ∧ tc att s x) →
  (length spans ≤ length path + fuel)%nat →
  is_Some (reify fuel m (id s)).
Proof.
  revert s path. induction fuel as [|fuel IH]; intros s path Hs Hnd' Hp Hlen.
  - pose proof (bounded (s :: path) Hnd') as B. simpl in B.
    assert (S (length path) ≤ length spans)%nat; [|lia].
    apply B. intros x [->|Hx]%elem_of_cons; [done|]. by apply Hp.
  - rewrite reify_S by done.
    assert (is_Some (mapM (reify fuel m) (id <$> kids_of spans s)))
      as [ks ->]; [|done].
    apply mapM_is_Some, Forall_fmap, Forall_forall. intros c Hc. simpl.
    assert (att c s) as Hcs by (by apply elem_of_kids).
    apply (IH c (s :: path)); [by eapply kids_in| | |simpl; lia].
    + apply NoDup_cons. split; [|done].
      intros [->|Hcp]%elem_of_cons; [by apply (attached_irrefl s)|].
      destruct (Hp c Hcp) as [_ Htc].
      apply (attached_acyclic c). by eapply tc_l.
    + intros x [->|Hx]%elem_of_cons; [split; [done|by apply tc_once]|].
      destruct (Hp x Hx). split; [done|]. by eapply tc_l.
Qed.

Lemma fmap_NoDup_inj {A B} (f : A → B) (l : list A) a b :
  NoDup (f <$> l) → a ∈ l → b ∈ l → f a = f b → a = b.
Proof.
  induction l as [|x l IH]; [by rewrite elem_of_nil|].
  rewrite fmap_cons, NoDup_cons, !elem_of_cons.
  intros [Hx Hl] [->|Ha] [->|Hb] E; auto.
  - destruct Hx. rewrite E. by apply list_elem_of_fmap_2.
  - destruct Hx. rewrite <- E. by apply list_elem_of_fmap_2.
Qed.

Lemma Forall2_elem_l {A B} (P : A → B → Prop) l k a :
  Forall2 P l k → a ∈ l → ∃ b, b ∈ k ∧ P a b.
Proof.
  intros H (i & Hi)%list_elem_of_lookup.
  destruct (Forall2_lookup_l _ _ _ _ _ H Hi) as (b & Hb & ?).
  exists b. split; [by eapply list_elem_of_lookup_2|done].
Qed.

Lemma Forall2_elem_r {A B} (P : A → B → Prop) l k b :
  Forall2 P l k → b ∈ k → ∃ a, a ∈ l ∧ P a b.
Proof.
  intros H (i & Hi)%list_elem_of_lookup.
  destruct (Forall2_lookup_r _ _ _ _ _ H Hi) as (a & Ha & ?).
  exists a. split; [by eapply list_elem_of_lookup_2|done].
Qed.

Lemma Forall2_impl_elem {A B} (P Q : A → B → Prop) l k :
  Forall2 P l k → (∀ a b, a ∈ l → P a b → Q a b) → Forall2 Q l k.
Proof.
  induction 1 as [|a b l k Hab _ IH]; intros HPQ; constructor.
  - apply HPQ; [by left|done].
  - apply IH. intros a' b' Ha'. apply HPQ. by right.
Qed.

Lemma Forall2_root (l : list UITraceSpan) (ks : list SpanWithChildren) :
  Forall2 (λ c k, root k = c) l ks → root <$> ks = l.
Proof. induction 1 as [|c k l ks <- _ IH]; [done|]. by rewrite fmap_cons, IH. Qed.

Lemma fmap_bind_list {A B C} (f : B → C) (g : A → list B) (l : list A) :
  f <$> (l ≫= g) = l ≫= (λ a, f <$> g a).
Proof.
  induction l as [|a l IH]; [done|].
  by rewrite !bind_cons, fmap_app, IH.
Qed.

(** The spans of the nodes: the top ones and, for every node, those of
    its children. *)
Lemma nodes_roots_children (ks : list SpanWithChildren) :
  Forall (λ k, root <$> nodes k ≡ₚ root k :: (nodes k ≫= child_spans)) ks →
  root <$> (ks ≫= nodes)
  ≡ₚ (root <$> ks) ++ ((ks ≫= nodes) ≫= child_spans).
Proof.
  induction 1 as [|k ks Hk _ IH]; [done|].
  rewrite !bind_cons, fmap_app, bind_app, fmap_cons, Hk, IH. simpl.
  constructor. apply Permutation_app_swap_app.
Qed.

Lemma reify_tree (fuel : nat) s t :
  s ∈ spans → reify fuel m (id s) = Some t → hierarchy_below spans s t.
Proof.
  revert s t. induction fuel as [|fuel IH]; intros s t Hs; [done|].
  rewrite reify_S by done.
  destruct (mapM _ _) as [ks|] eqn:E; [|done]. intros [= <-].
  apply mapM_Some, Forall2_fmap_l in E.
  assert (Forall2 (hierarchy_below spans) (kids_of spans s) ks) as H2.
  { assert (∀ c, c ∈ kids_of spans s → c ∈ spans) as Hin
      by (intros; by eapply kids_in).
    revert Hin. induction E as [|c k l ks' Hck _ IH']; intros Hin;
      constructor.
    - apply IH; [|done]. apply Hin. by left.
    - apply IH'. intros. apply Hin. by right. }
  clear E IH.
  assert (root <$> ks = kids_of spans s) as Hroots.
  { apply Forall2_root. eapply Forall2_impl; [exact H2|].
    by intros c k (? & _). }
  assert (∀ k, k ∈ ks → ∃ c, att c s ∧ hierarchy_below spans c k) as Hk.
  { intros k Hk. destruct (Forall2_elem_r _ _ _ _ H2 Hk) as (c & Hc & ?).
    exists c. split; [by apply elem_of_kids|done]. }
  assert (∀ x, x ∈ root <$> (ks ≫= nodes)
               ↔ ∃ c, att c s ∧ rtc att x c) as Hdesc.
  { intros x. rewrite fmap_bind_list, list_elem_of_bind. split.
    - intros (k & Hx & (c & Hc & (_ & _ & Hr & _))%Hk).
      exists c. split; [done|]. by apply Hr.
    - intros (c & Hc & Hr).
      destruct (Forall2_elem_l _ _ _ c H2) as (k & Hkin & Hk');
        [by apply elem_of_kids|].
      exists k. split; [|done]. by apply Hk'. }
  split; [done|]. split; [|split; [|split]].
  - intros t' [->|Ht']%elem_of_cons; [done|].
    apply list_elem_of_bind in Ht' as (k & Ht' & (c & _ & Hc)%Hk).
    by apply Hc.
  - intros x. simpl. rewrite elem_of_cons, Hdesc. split.
    + intros [->|(c & Hc & Hr)]; [done|]. by eapply rtc_r.
    + intros [->|(c & Hr & Hc)]%rtc_inv_r; [by left|]. right. eauto.
  - simpl. apply NoDup_cons. split.
    + rewrite Hdesc. intros (c & Hc & Hr).
      apply (attached_acyclic s). eapply tc_rtc_l; [done|by apply tc_once].
    + rewrite fmap_bind_list. apply NoDup_bind.
      * intros k1 k2 y Hk1 Hk2 Hy1 Hy2.
        destruct (Hk k1 Hk1) as (c1 & Hc1 & (R1 & _ & Hr1 & _)).
        destruct (Hk k2 Hk2) as (c2 & Hc2 & (R2 & _ & Hr2 & _)).
        apply (fmap_NoDup_inj root ks); try done.
        { rewrite Hroots. apply NoDup_filter, NoDup_spans. }
        rewrite R1, R2. apply (siblings y c1 c2 s); try done.
        -- by apply Hr1.
        -- by apply Hr2.
      * intros k (c & _ & Hc)%Hk. apply Hc.
      * apply (NoDup_fmap_1 root). rewrite Hroots.
        apply NoDup_filter, NoDup_spans.
  - simpl. constructor. unfold child_spans at 1. simpl.
    apply nodes_roots_children, Forall_forall.
    intros k (c & _ & (R & _ & _ & _ & Hp))%Hk. by rewrite R.
Qed.

End Forest.

(** A rank that decreases from child to parent excludes cycles. *)
Lemma acyclic_by_rank (spans : list Trace.UITraceSpan)
    (rank : Trace.UITraceSpan → nat) :
  (∀ c p, Trace.parent_of spans c p → rank p < rank c) →
  Trace.acyclic spans.
Proof.
  intros Hr s Hs.
  assert (∀ a b, tc (Trace.parent_of spans) a b → rank b < rank a) as Htc.
  { intros a b H. induction H as [a b H|a b c H _ IH].
    - by apply Hr.
    - apply Hr in H. lia. }
  apply Htc in Hs. lia.
Qed.

(** C2 (amended).  For spans with unique ids, none of them transitively its
    own ancestor, [buildSpanHierarchy] returns a forest in which: the roots
    are, in input order, the spans whose [parent_id] is null or absent, is
    the empty string, or is not the id of a span of the input (such spans
    are promoted to roots, never dropped); the children of every node are,
    in input order, the spans whose [parent_id] is its id; the nodes are the
    spans of the input, none lost and none twice; and every other span is a
    child in exactly one children list, that of the span its [parent_id]
    names. *)
Theorem span_hierarchy_is_the_forest (spans : list Trace.UITraceSpan) :
  NoDup (Trace.id <$> spans) → Trace.acyclic spans →
  ∃ forest,
    Trace.buildSpanHierarchy spans = Some forest
    ∧ Trace.root <$> forest = Trace.roots_of spans
    ∧ (∀ r, r ∈ Trace.root <$> forest ↔
            r ∈ spans
            ∧ (Trace.parent_id r = None ∨ Trace.parent_id r = Some ""
               ∨ ∃ q, Trace.parent_id r = Some q ∧ q ∉ Trace.id <$> spans))
    ∧ (∀ t, t ∈ Trace.forest_nodes forest →
            Trace.child_spans t = Trace.kids_of spans (Trace.root t))
    ∧ Trace.flatten forest ≡ₚ spans
    ∧ (snd <$> Trace.edges forest)
      ≡ₚ filter (λ s, ¬ Trace.parent_key spans s = None) spans
    ∧ (∀ p c, (p, c) ∈ Trace.edges forest →
              Trace.parent_id c = Some (Trace.id p))
    ∧ sublist (Trace.root <$> forest) spans
    ∧ (∀ t, t ∈ Trace.forest_nodes forest →
            sublist (Trace.child_spans t) spans).
Proof.
  intros Hnd Hac.
  destruct (build_spec spans Hnd) as (m & Hb & Hm & _).
  unfold Trace.buildSpanHierarchy. rewrite Hb.
  assert (∀ r, r ∈ Trace.roots_of spans
               ↔ r ∈ spans ∧ Trace.parent_key spans r = None) as Hroot.
  { intros r. unfold Trace.roots_of. rewrite list_elem_of_filter. tauto. }
  assert (is_Some (mapM (Trace.reify (length spans) m)
                     (Trace.id <$> Trace.roots_of spans))) as [forest E].
  { apply mapM_is_Some, Forall_fmap, Forall_forall. intros r [Hr _]%Hroot.
    apply (reify_fuel spans Hac m Hm (length spans) r []);
      [done|apply NoDup_singleton|by intros ? ?%elem_of_nil|simpl; lia]. }
  exists forest. split; [done|].
  apply mapM_Some, Forall2_fmap_l in E.
  assert (Forall2 (Trace.hierarchy_below spans) (Trace.roots_of spans) forest)
    as H2.
  { eapply Forall2_impl_elem; [exact E|]. intros r t [Hr _]%Hroot Hrt.
    by eapply (reify_tree spans Hnd Hac m Hm). }
  clear E.
  assert (Trace.root <$> forest = Trace.roots_of spans) as Hroots.
  { apply Forall2_root. eapply Forall2_impl; [exact H2|].
    by intros r t (? & _). }
  assert (NoDup spans) as Hnds by (by eapply NoDup_spans).
  assert (∀ t, t ∈ forest →
               ∃ r, r ∈ spans ∧ Trace.parent_key spans r = None
                    ∧ Trace.hierarchy_below spans r t) as Ht.
  { intros t Hin. destruct (Forall2_elem_r _ _ _ _ H2 Hin) as (r & Hr & ?).
    apply Hroot in Hr as [? ?]. eauto. }
  assert (∀ t, t ∈ Trace.forest_nodes forest →
               Trace.root t ∈ spans
               ∧ Trace.child_spans t = Trace.kids_of spans (Trace.root t))
    as Hnodes.
  { intros t' (t & Ht' & (r & _ & _ & (_ & Hk & _))%Ht)%list_elem_of_bind.
    by apply Hk. }
  assert (Trace.flatten forest ≡ₚ spans) as Hperm.
  { unfold Trace.flatten, Trace.forest_nodes. rewrite fmap_bind_list.
    apply NoDup_Permutation; [|done|].
    - apply NoDup_bind.
      + intros t1 t2 y Ht1 Ht2 Hy1 Hy2.
        destruct (Ht t1 Ht1) as (r1 & _ & N1 & (R1 & _ & Hr1 & _)).
        destruct (Ht t2 Ht2) as (r2 & _ & N2 & (R2 & _ & Hr2 & _)).
        apply (fmap_NoDup_inj Trace.root forest); try done.
        { rewrite Hroots. by apply NoDup_filter. }
        rewrite R1, R2. apply (root_unique spans Hnd y r1 r2); try done.
        * by apply Hr1.
        * by apply Hr2.
      + intros t (r & _ & _ & Hr)%Ht. apply Hr.
      + apply (NoDup_fmap_1 Trace.root). rewrite Hroots.
        by apply NoDup_filter.
    - intros x. rewrite list_elem_of_bind. split.
      + intros (t & Hx & (r & Hr & _ & (_ & _ & Hd & _))%Ht).
        eapply rtc_attached_in; [exact Hr|]. by apply Hd.
      + intros Hx.
        destruct (root_ancestor spans Hac x Hx) as (r & Hxr & Hr & Nr).
        destruct (Forall2_elem_l _ _ _ r H2) as (t & Htin & Hrt);
          [by apply Hroot|].
        exists t. split; [|done]. by apply Hrt. }
  assert (snd <$> Trace.edges forest
          = Trace.forest_nodes forest ≫= Trace.child_spans) as Hedges.
  { unfold Trace.edges. rewrite fmap_bind_list.
    apply list_bind_ext; [|done]. intros t. unfold Trace.child_spans.
    rewrite <- list_fmap_compose. done. }
  split; [done|]. split; [|split; [|split; [done|split; [|split; [|split]]]]].
  - intros r. rewrite Hroots, Hroot.
    by rewrite (parent_key_None spans).
  - intros t Hin. by apply Hnodes.
  - rewrite Hedges.
    apply (Permutation_app_inv_l (Trace.root <$> forest)).
    rewrite Hroots at 2. unfold Trace.roots_of.
    rewrite filter_app_complement, <- Hperm.
    unfold Trace.flatten, Trace.forest_nodes. symmetry.
    apply nodes_roots_children, Forall_forall.
    intros t (r & _ & _ & (R & _ & _ & _ & Hp))%Ht. by rewrite R.
  - intros p c (t & Hpc & Hin)%list_elem_of_bind.
    apply list_elem_of_fmap in Hpc as (k & [= -> ->] & Hk).
    destruct (Hnodes t Hin) as [_ Hc].
    assert (Trace.root k ∈ Trace.child_spans t) as Hkc
      by (by apply list_elem_of_fmap_2).
    rewrite Hc in Hkc. unfold Trace.kids_of in Hkc.
    apply list_elem_of_filter in Hkc as [Hkey _].
    by apply (parent_key_Some spans) in Hkey as [? _].
  - rewrite Hroots. apply sublist_filter.
  - intros t [_ ->]%Hnodes. apply sublist_filter.
Qed.

(** C2, as stated, fails: a span whose [parent_id] is the empty string is a
    root, although a span of the input has the empty string as its id. *)
Lemma empty_parent_id_makes_a_root :
  NoDup (Trace.id <$> Sample.empty_id_spans)
  ∧ Trace.acyclic Sample.empty_id_spans
  ∧ Trace.buildSpanHierarchy Sample.empty_id_spans
    = Some [Trace.Node (Sample.sp "" None) [];
            Trace.Node (Sample.sp "a" (Some "")) []]
  ∧ Trace.parent_id (Sample.sp "a" (Some "")) = Some ""
  ∧ "" ∈ Trace.id <$> Sample.empty_id_spans.
Proof.
  split; [by apply (bool_decide_unpack _)|].
  split; [|split; [by vm_compute|split; [done|by left]]].
  apply (acyclic_by_rank _ (λ s, String.length (Trace.id s))).
  intros c p (Hc & Hp & E). unfold Sample.empty_id_spans in *.
  rewrite !elem_of_cons, elem_of_nil in Hc, Hp.
  destruct Hc as [->|[->|[]]], Hp as [->|[->|[]]];
    simpl in *; try discriminate; lia.
Qed.

(** The sample spans have no cycle: parents have a smaller rank. *)
Lemma five_spans_acyclic : Trace.acyclic Sample.five_spans.
Proof.
  apply (acyclic_by_rank _ Sample.five_rank).
  intros c p (Hc & Hp & E). unfold Sample.five_spans in *.
  rewrite !elem_of_cons, elem_of_nil in Hc, Hp.
  destruct Hc as [->|[->|[->|[->|[->|[]]]]]],
           Hp as [->|[->|[->|[->|[->|[]]]]]];
    simpl in *; try discriminate; vm_compute; lia.
Qed.

(** The forest of the five sample spans: the roots are the span without
    parent and the span whose parent is missing. *)
Lemma span_hierarchy_is_the_forest_witness :
  NoDup (Trace.id <$> Sample.five_spans)
  ∧ Trace.acyclic Sample.five_spans
  ∧ ∃ forest,
      Trace.buildSpanHierarchy Sample.five_spans = Some forest
      ∧ Trace.root <$> forest
        = [Sample.sp "a" None; Sample.sp "d" (Some "zz")]
      ∧ Trace.flatten forest ≡ₚ Sample.five_spans.
Proof.
  assert (NoDup (Trace.id <$> Sample.five_spans)) as Hnd
    by (by apply (bool_decide_unpack _)).
  split; [exact Hnd|]. split; [exact five_spans_acyclic|].
  destruct (span_hierarchy_is_the_forest Sample.five_spans Hnd
              five_spans_acyclic)
    as (forest & E & Hr & _ & _ & Hp & _).
  exists forest. split; [exact E|]. split; [|exact Hp].
  rewrite Hr. reflexivity.
Defined.

(** * Further facts *)

(** ** The stream decoder on the whole text *)

Lemma free_app (c : ascii) (a b : string) :
  Sse.free c (a +:+ b) = Sse.free c a && Sse.free c b.
Proof.
  induction a as [|x a IH]; [done|].
  rewrite sapp_cons. simpl. by rewrite IH, andb_assoc.
Qed.

Lemma split_aux_no_sep (c : ascii) (s : string) :
  Sse.free c s = true → Js.split_aux c s = (s, []).
Proof.
  induction s as [|x s IH]; [done|]. simpl.
  intros [Hx Hs]%andb_true_iff. rewrite (IH Hs).
  apply negb_true_iff in Hx. by rewrite Hx.
Qed.

(** A text without a line feed has no complete line. *)
Lemma lines_of_free (s : string) :
  Sse.free Js.LF s = true → Sse.lines_of s = [] ∧ Sse.rest_of s = s.
Proof.
  intros H. unfold Sse.lines_of, Sse.rest_of, Js.split.
  rewrite (split_aux_no_sep _ _ H). simpl. split; [done|].
  by destruct (String.eqb_spec s "").
Qed.

(** What stays in the buffer has no line feed. *)
Lemma rest_of_free (text : string) :
  Sse.free Js.LF (Sse.rest_of text) = true.
Proof.
  unfold Sse.rest_of, Js.pop. simpl.
  destruct (split_cons text) as (h & t & E).
  destruct (exists_last (l:=h :: t)) as (ls & r & E'); [done|].
  rewrite E, E' in *. rewrite last_snoc.
  destruct (split_unsplit text ls r E) as (_ & _ & Hr).
  unfold Js.or_else. by destruct (String.eqb_spec r "").
Qed.

Lemma text_app (a b : list string) :
  SseText.text (a ++ b) = SseText.text a +:+ SseText.text b.
Proof.
  induction a as [|x a IH]; [done|].
  simpl. by rewrite IH, sapp_assoc.
Qed.

Section StreamTextFacts.

Context {V : Type} (JSON_parse : string → option V) (truthy : V → bool).

#[local] Abbreviation on_line := (Sse.on_line JSON_parse truthy).
#[local] Abbreviation for_lines := (Sse.for_lines JSON_parse truthy).
#[local] Abbreviation on_chunk := (Sse.on_chunk JSON_parse truthy).
#[local] Abbreviation read_loop := (Sse.read_loop JSON_parse truthy).
#[local] Abbreviation streamAgent := (Sse.streamAgent JSON_parse truthy).
#[local] Abbreviation events := (Sse.events JSON_parse truthy).
#[local] Abbreviation closes := (Sse.closes truthy).
#[local] Abbreviation delivered := (SseText.delivered JSON_parse truthy).
#[local] Abbreviation is_line := (λ l, Sse.free Js.LF l = true).

Implicit Types (ev : Sse.StreamResponse (V:=V)) (tr : list (Sse.Effect (V:=V))).

(** The buffer never holds a line feed. *)
Lemma read_loop_buffer buffer chunks tr b :
  Sse.free Js.LF buffer = true →
  read_loop buffer chunks = (tr, Sse.ReaderDone b) →
  b = Sse.rest_of (buffer +:+ SseText.text chunks).
Proof.
  revert buffer tr. induction chunks as [|c chunks IH]; intros buffer tr Hb.
  - simpl. intros [= _ <-]. rewrite sapp_empty_r.
    by destruct (lines_of_free _ Hb) as [_ ->].
  - simpl. rewrite (on_chunk_eq JSON_parse truthy).
    destruct (for_lines Sse.empty _) as [t1 [ev1|]]; [|done].
    destruct (read_loop _ chunks) as [t2 e] eqn:E. intros [= _ ->].
    apply IH in E; [|apply rest_of_free].
    rewrite <- sapp_assoc.
    by destruct (lines_of_app (buffer +:+ c) (SseText.text chunks)) as [_ ->].
Qed.

(** What a line leaves in the record under construction. *)
Lemma on_line_closes ev l ev' tr :
  on_line ev l = (tr, Some ev') →
  closes ev' `sublist_of`
    (if String.eqb l "" then [] else closes ev ++ option_list (delivered l)).
Proof.
  unfold Sse.on_line, SseText.delivered, Sse.closes.
  destruct (Js.startsWith l "event: ") eqn:He.
  { rewrite (event_not_data _ He). destruct l; [done|].
    intros [= _ <-]. simpl. by rewrite app_nil_r. }
  destruct (Js.startsWith l "data: ") eqn:Hd.
  { destruct l; [done|]. simpl.
    destruct (String.eqb _ "[DONE]"); [done|].
    destruct (JSON_parse _) as [v|]; intros [= _ <-]; simpl.
    - destruct (truthy v); [by apply sublist_inserts_l|apply sublist_nil_l].
    - by rewrite app_nil_r. }
  destruct (Js.startsWith l "id: ") eqn:Hi.
  { destruct l; [done|]. intros [= _ <-]. simpl. by rewrite app_nil_r. }
  destruct (String.eqb l "").
  - destruct (Sse.data ev) as [v|] eqn:Ev; [destruct (truthy v) eqn:Hv|];
      intros [= _ <-]; simpl; [done|by rewrite Ev, Hv|by rewrite Ev].
  - intros [= _ <-]. by rewrite app_nil_r.
Qed.

Lemma delivered_blank : delivered "" = None.
Proof. reflexivity. Qed.

Lemma for_lines_sublist ev ls :
  Sse.yielded (for_lines ev ls).1 `sublist_of` closes ev ++ omap delivered ls.
Proof.
  revert ev. induction ls as [|l ls IH]; intros ev; [apply sublist_nil_l|].
  simpl. pose proof (on_line_yielded JSON_parse truthy ev l) as Y.
  destruct (on_line ev l) as [tr [ev'|]] eqn:E; simpl in Y.
  - pose proof (on_line_closes _ _ _ _ E) as C. specialize (IH ev').
    destruct (for_lines ev' ls) as [tr' r]. simpl in *.
    rewrite (yielded_app (V:=V)), Y.
    destruct (String.eqb_spec l "") as [->|Hl].
    + rewrite delivered_blank. apply sublist_nil_r in C. rewrite C in IH.
      by apply sublist_app.
    + simpl. etransitivity; [exact IH|].
      destruct (delivered l) as [v|]; simpl in *.
      * rewrite (cons_middle v), app_assoc. by apply sublist_app.
      * rewrite app_nil_r in C. by apply sublist_app.
  - simpl. rewrite Y. destruct (String.eqb l "").
    + destruct (delivered l); by apply sublist_inserts_r.
    + apply sublist_nil_l.
Qed.

Lemma read_loop_sublist buffer chunks :
  Sse.yielded (read_loop buffer chunks).1
  `sublist_of`
  omap delivered (Sse.lines_of (buffer +:+ SseText.text chunks)).
Proof.
  revert buffer. induction chunks as [|c chunks IH]; intros buffer;
    [apply sublist_nil_l|].
  simpl. rewrite (on_chunk_eq JSON_parse truthy), <- sapp_assoc.
  destruct (lines_of_app (buffer +:+ c) (SseText.text chunks)) as [-> _].
  rewrite omap_app.
  pose proof (for_lines_sublist Sse.empty (Sse.lines_of (buffer +:+ c))) as H.
  destruct (for_lines Sse.empty _) as [t1 [ev1|]]; simpl in *.
  - specialize (IH (Sse.rest_of (buffer +:+ c))).
    destruct (read_loop _ chunks) as [t2 e]. simpl in *.
    rewrite (yielded_app (V:=V)). by apply sublist_app.
  - by apply sublist_inserts_r.
Qed.

Lemma for_lines_no_blank ev ls :
  Forall (λ l, l ≠ "") ls → Sse.yielded (for_lines ev ls).1 = [].
Proof.
  intros H. revert ev. induction H as [|l ls Hl _ IH]; intros ev; [done|].
  simpl. pose proof (on_line_yielded JSON_parse truthy ev l) as Y.
  apply String.eqb_neq in Hl. rewrite Hl in Y.
  destruct (on_line ev l) as [tr [ev'|]]; [|done].
  specialize (IH ev'). destruct (for_lines ev' ls). simpl in *.
  by rewrite (yielded_app (V:=V)), Y, IH.
Qed.

Lemma read_loop_no_blank buffer chunks :
  Forall (λ l, l ≠ "") (Sse.lines_of (buffer +:+ SseText.text chunks)) →
  Sse.yielded (read_loop buffer chunks).1 = [].
Proof.
  revert buffer. induction chunks as [|c chunks IH]; intros buffer; [done|].
  simpl. rewrite (on_chunk_eq JSON_parse truthy), <- sapp_assoc.
  destruct (lines_of_app (buffer +:+ c) (SseText.text chunks)) as [-> _].
  intros [H1 H2]%Forall_app.
  pose proof (for_lines_no_blank Sse.empty _ H1) as Y.
  destruct (for_lines Sse.empty _) as [t1 [ev1|]]; [|done].
  specialize (IH _ H2). destruct (read_loop _ chunks). simpl in *.
  by rewrite (yielded_app (V:=V)), Y, IH.
Qed.

(** Lines other than [data: ] lines and blank lines only touch the [event]
    and [id] of the record under construction, which nothing reads. *)
Lemma on_line_other ev l :
  Js.startsWith l "data: " = false → l ≠ "" →
  ∃ ev', on_line ev l = ([], Some ev') ∧ SseText.same_data ev' ev.
Proof.
  intros Hd Hl%String.eqb_neq. unfold Sse.on_line. rewrite Hd, Hl.
  destruct (Js.startsWith l "event: "); [by eexists|].
  destruct (Js.startsWith l "id: "); by eexists.
Qed.

Lemma on_line_same_data ev1 ev2 l :
  SseText.same_data ev1 ev2 →
  (on_line ev1 l).1 = (on_line ev2 l).1
  ∧ SseText.same_outcome (on_line ev1 l).2 (on_line ev2 l).2.
Proof.
  unfold SseText.same_data, Sse.on_line. intros H.
  destruct (Js.startsWith l "event: "); [done|].
  destruct (Js.startsWith l "data: ").
  { destruct (String.eqb _ "[DONE]"); [done|].
    by destruct (JSON_parse _). }
  destruct (Js.startsWith l "id: "); [done|].
  destruct (String.eqb l ""); [|done]. rewrite <- H.
  destruct (Sse.data ev1) as [v|] eqn:E; [destruct (truthy v)|];
    simpl; unfold SseText.same_data; (split; [done|]); try done; congruence.
Qed.

Lemma for_lines_same_data ev1 ev2 ls :
  SseText.same_data ev1 ev2 →
  (for_lines ev1 ls).1 = (for_lines ev2 ls).1
  ∧ SseText.same_outcome (for_lines ev1 ls).2 (for_lines ev2 ls).2.
Proof.
  revert ev1 ev2. induction ls as [|l ls IH]; intros ev1 ev2 H; [done|].
  simpl. destruct (on_line_same_data ev1 ev2 l H) as [T O].
  destruct (on_line ev1 l) as [t1 [e1|]], (on_line ev2 l) as [t2 [e2|]];
    simpl in *; try done.
  destruct (IH e1 e2 O) as [T' O'].
  destruct (for_lines e1 ls), (for_lines e2 ls). simpl in *.
  by rewrite T, T'.
Qed.

(** A chunk with and without a complete line that is neither a [data: ]
    line nor blank, at a line boundary: the same effects, the same
    continuation. *)
Lemma on_chunk_ignore buffer a l1 l z :
  buffer +:+ a = Sse.unlines l1 → Forall is_line l1 →
  Sse.free Js.LF l = true → Js.startsWith l "data: " = false → l ≠ "" →
  on_chunk buffer (a +:+ l +:+ Sse.nl +:+ z) = on_chunk buffer (a +:+ z).
Proof.
  intros E Hl Hf Hd Hne.
  assert (buffer +:+ (a +:+ l +:+ Sse.nl +:+ z)
          = Sse.unlines (l1 ++ [l]) +:+ z) as E1.
  { by rewrite unlines_app, unlines_one, <- E, !sapp_assoc. }
  assert (buffer +:+ (a +:+ z) = Sse.unlines l1 +:+ z) as E2.
  { by rewrite <- E, sapp_assoc. }
  rewrite !(on_chunk_eq JSON_parse truthy), E1, E2.
  rewrite !lines_of_unlines, !rest_of_unlines
    by (try apply Forall_app; try split; try done; by repeat constructor).
  rewrite <- app_assoc, !(for_lines_app JSON_parse truthy).
  destruct (for_lines Sse.empty l1) as [t1 [ev1|]]; [|done].
  simpl. destruct (on_line_other ev1 l Hd Hne) as (ev' & -> & D).
  destruct (for_lines_same_data ev' ev1 (Sse.lines_of z) D) as [T O].
  destruct (for_lines ev' _) as [t2 [e2|]], (for_lines ev1 _) as [t3 [e3|]];
    simpl in *; try done; by rewrite T.
Qed.

(** X1.  Whatever the chunking, the values yielded are a subsequence of the
    truthy parsed payloads of the [data: ] lines of the whole text, in the
    order of the text: a yield is always the parsed payload of a complete
    [data: ] line, no line is yielded twice, and the order of the stream is
    kept. *)
Theorem yields_follow_the_data_lines (chunks : list string) :
  events chunks
  `sublist_of` omap delivered (Sse.lines_of (SseText.text chunks)).
Proof.
  unfold Sse.events, Sse.streamAgent.
  pose proof (read_loop_sublist "" chunks) as H. by rewrite sapp_nil in H.
Qed.

(** X2.  When the reader reports the end, the buffer carried from chunk to
    chunk holds exactly the text after the last line feed of the whole
    stream: the chunk boundaries neither split nor merge a line. *)
Theorem buffer_is_the_unterminated_tail (chunks : list string) tr b :
  streamAgent chunks = (tr, Sse.ReaderDone b) →
  b = Sse.rest_of (SseText.text chunks)
  ∧ SseText.text chunks
    = Sse.unlines (Sse.lines_of (SseText.text chunks)) +:+ b
  ∧ Sse.free Js.LF b = true.
Proof.
  intros H. apply read_loop_buffer in H; [|done]. rewrite sapp_nil in H.
  subst b. split; [done|]. split; [apply text_lines_rest|apply rest_of_free].
Qed.

(** X3.  Text after the last line feed is never decoded: a last chunk
    without a line feed adds no effect at all, it only lengthens the
    buffer that is dropped when the reader reports the end.  A record whose
    closing blank line is not complete is not yielded. *)
Theorem text_without_line_feed_is_not_decoded (chunks : list string) t :
  Sse.free Js.LF t = true →
  streamAgent (chunks ++ [t])
  = ((streamAgent chunks).1,
     match (streamAgent chunks).2 with
     | Sse.ReaderDone b => Sse.ReaderDone (b +:+ t)
     | Sse.Sentinel => Sse.Sentinel
     end).
Proof.
  intros Ht. unfold Sse.streamAgent.
  rewrite (read_loop_app JSON_parse truthy).
  destruct (read_loop "" chunks) as [tr [b|]] eqn:E; [|done].
  apply read_loop_buffer in E; [|done].
  assert (Sse.free Js.LF (b +:+ t) = true) as Hbt.
  { rewrite free_app, Ht, E. by rewrite rest_of_free. }
  simpl. rewrite (on_chunk_eq JSON_parse truthy).
  destruct (lines_of_free _ Hbt) as [-> ->]. simpl. by rewrite app_nil_r.
Qed.

(** X4.  Nothing is yielded except at a blank line: a stream none of whose
    complete lines is the empty string yields no event.  So a stream that
    ends its lines with a carriage return and a line feed yields nothing,
    its separator lines holding the carriage return. *)
Theorem no_blank_line_no_event (chunks : list string) :
  Forall (λ l, l ≠ "") (Sse.lines_of (SseText.text chunks)) →
  events chunks = [].
Proof.
  intros H. unfold Sse.events, Sse.streamAgent.
  apply read_loop_no_blank. by rewrite sapp_nil.
Qed.

(** X5.  The [event: ] and [id: ] lines, and every other line that is
    neither a [data: ] line nor blank, have no effect on the output: the
    generator yields and warns the same and ends the same way on the
    stream with such a line and on the stream without it.  The event name
    and the id are stored in the record under construction and never
    delivered. *)
Theorem non_data_lines_are_ignored pre tr0 b a l1 l z post :
  streamAgent pre = (tr0, Sse.ReaderDone b) →
  b +:+ a = Sse.unlines l1 → Forall is_line l1 →
  Sse.free Js.LF l = true → Js.startsWith l "data: " = false → l ≠ "" →
  streamAgent (pre ++ (a +:+ l +:+ Sse.nl +:+ z) :: post)
  = streamAgent (pre ++ (a +:+ z) :: post).
Proof.
  intros Hpre E Hl Hf Hd Hne. unfold Sse.streamAgent in *.
  rewrite !(read_loop_app JSON_parse truthy), Hpre. simpl.
  by rewrite (on_chunk_ignore b a l1 l z E Hl Hf Hd Hne).
Qed.

Lemma on_line_alike ev1 ev2 l :
  closes ev1 = closes ev2 →
  (on_line ev1 l).1 = (on_line ev2 l).1
  ∧ SseText.alike truthy (on_line ev1 l).2 (on_line ev2 l).2.
Proof.
  unfold Sse.on_line, Sse.closes. intros H.
  destruct (Js.startsWith l "event: "); [done|].
  destruct (Js.startsWith l "data: ").
  { destruct (String.eqb _ "[DONE]"); [done|].
    by destruct (JSON_parse _). }
  destruct (Js.startsWith l "id: "); [done|].
  destruct (String.eqb l ""); [|done].
  destruct (Sse.data ev1) as [v1|] eqn:E1, (Sse.data ev2) as [v2|] eqn:E2;
    try destruct (truthy v1) eqn:T1; try destruct (truthy v2) eqn:T2;
    simpl; unfold Sse.closes; rewrite ?E1, ?E2, ?T1, ?T2;
    try done; by injection H as ->.
Qed.

Lemma for_lines_alike ev1 ev2 ls :
  closes ev1 = closes ev2 →
  (for_lines ev1 ls).1 = (for_lines ev2 ls).1
  ∧ SseText.alike truthy (for_lines ev1 ls).2 (for_lines ev2 ls).2.
Proof.
  revert ev1 ev2. induction ls as [|l ls IH]; intros ev1 ev2 H; [done|].
  simpl. destruct (on_line_alike ev1 ev2 l H) as [T O].
  destruct (on_line ev1 l) as [t1 [e1|]], (on_line ev2 l) as [t2 [e2|]];
    simpl in *; try done.
  destruct (IH e1 e2 O) as [T' O'].
  destruct (for_lines e1 ls), (for_lines e2 ls). simpl in *.
  by rewrite T, T'.
Qed.

(** After a blank line nothing is left to yield. *)
Lemma for_lines_blank_last ev ls tr ev' :
  ls = [] ∨ last ls = Some "" → closes ev = [] →
  for_lines ev ls = (tr, Some ev') → closes ev' = [].
Proof.
  intros [->|Hl] Hq.
  - by intros [= _ <-].
  - apply last_Some in Hl as [ls' ->].
    rewrite (for_lines_app JSON_parse truthy).
    destruct (for_lines ev ls') as [t1 [e1|]]; [|done]. simpl.
    rewrite (on_line_blank JSON_parse truthy). intros [= _ <-].
    by destruct (decide (closes e1 = [])).
Qed.

Lemma read_loop_cons buffer c chunks :
  read_loop buffer (c :: chunks)
  = match on_chunk buffer c with
    | (tr, None) => (tr, Sse.Sentinel)
    | (tr, Some b) => let '(tr', e) := read_loop b chunks in (tr ++ tr', e)
    end.
Proof. reflexivity. Qed.

Lemma read_loop_one_chunk buffer chunks :
  Sse.free Js.LF buffer = true →
  Forall (λ ls, ls = [] ∨ last ls = Some "")
    (SseText.lines_per_chunk buffer chunks) →
  read_loop buffer chunks = read_loop buffer [SseText.text chunks].
Proof.
  revert buffer. induction chunks as [|c chunks IH]; intros buffer Hb H.
  - simpl. rewrite (on_chunk_eq JSON_parse truthy), sapp_empty_r.
    by destruct (lines_of_free _ Hb) as [-> ->].
  - simpl in H. apply Forall_cons in H as [H1 H2].
    specialize (IH _ (rest_of_free _) H2).
    change (SseText.text (c :: chunks)) with (c +:+ SseText.text chunks).
    rewrite !read_loop_cons, !(on_chunk_eq JSON_parse truthy), <- sapp_assoc.
    destruct (lines_of_app (buffer +:+ c) (SseText.text chunks)) as [-> ->].
    rewrite (for_lines_app JSON_parse truthy).
    destruct (for_lines Sse.empty (Sse.lines_of (buffer +:+ c)))
      as [t1 [e1|]] eqn:E1; [|done].
    rewrite IH, read_loop_cons, (on_chunk_eq JSON_parse truthy).
    pose proof (for_lines_blank_last Sse.empty _ _ _ H1 eq_refl E1) as Hq.
    set (l2 := Sse.lines_of (Sse.rest_of (buffer +:+ c)
                             +:+ SseText.text chunks)).
    destruct (for_lines_alike Sse.empty e1 l2) as [T O]; [done|].
    revert T O.
    destruct (for_lines Sse.empty l2) as [t2 [e2|]],
      (for_lines e1 l2) as [t3 [e3|]]; simpl; intros T O; try done;
      by rewrite T, ?app_nil_r.
Qed.

(** X18.  When the complete lines that every chunk brings end with a blank
    line (the chunk boundaries fall after a record, wherever in the next
    line), the chunking does not matter: the generator performs the same
    yields and warnings and ends the same way as on the whole text
    delivered in one chunk. *)
Theorem chunks_cut_after_blank_lines_decode_as_one (chunks : list string) :
  Forall (λ ls, ls = [] ∨ last ls = Some "")
    (SseText.lines_per_chunk "" chunks) →
  streamAgent chunks = streamAgent [SseText.text chunks].
Proof. intros H. by apply read_loop_one_chunk. Qed.

End StreamTextFacts.

Lemma chunks_cut_after_blank_lines_decode_as_one_witness :
  Sample.streamAgent
    ["data: [1]" +:+ Sse.nl +:+ Sse.nl +:+ "da";
     "ta: [2]" +:+ Sse.nl +:+ Sse.nl]
  = Sample.streamAgent
      ["data: [1]" +:+ Sse.nl +:+ Sse.nl +:+ "data: [2]" +:+ Sse.nl
       +:+ Sse.nl].
Proof.
  apply (chunks_cut_after_blank_lines_decode_as_one Json.parse Json.truthy
           ["data: [1]" +:+ Sse.nl +:+ Sse.nl +:+ "da";
            "ta: [2]" +:+ Sse.nl +:+ Sse.nl]).
  repeat constructor; by right.
Defined.

Lemma buffer_is_the_unterminated_tail_witness :
  "da" = Sse.rest_of (SseText.text [Sample.record_a +:+ "d"; "a"]).
Proof.
  exact (proj1 (buffer_is_the_unterminated_tail Json.parse Json.truthy
    [Sample.record_a +:+ "d"; "a"]
    [Sse.Yield (Sample.parsed1 97 1)] "da" eq_refl)).
Defined.

Lemma text_without_line_feed_is_not_decoded_witness :
  Sample.streamAgent
    ([Sample.record_a] ++ [Sse.data_line (Sample.object1 "b" "2")])
  = ([Sse.Yield (Sample.parsed1 97 1)],
     Sse.ReaderDone (Sse.data_line (Sample.object1 "b" "2"))).
Proof.
  exact (text_without_line_feed_is_not_decoded Json.parse Json.truthy
    [Sample.record_a] (Sse.data_line (Sample.object1 "b" "2")) eq_refl).
Defined.

Lemma no_blank_line_no_event_witness :
  Sample.events
    ["data: [1]" +:+ SseText.cr +:+ Sse.nl +:+ SseText.cr;
     Sse.nl +:+ "data: [2]" +:+ SseText.cr +:+ Sse.nl +:+ SseText.cr
     +:+ Sse.nl] = [].
Proof.
  apply (no_blank_line_no_event Json.parse Json.truthy).
  vm_compute. repeat constructor; discriminate.
Defined.

Lemma non_data_lines_are_ignored_witness :
  Sample.streamAgent
    (["da"] ++ ("ta: [2]" +:+ Sse.nl +:+ "event: message" +:+ Sse.nl
                +:+ Sse.nl) :: ["data: [4]" +:+ Sse.nl +:+ Sse.nl])
  = ([Sse.Yield (Json.Array [Sample.number 2]);
      Sse.Yield (Json.Array [Sample.number 4])], Sse.ReaderDone "").
Proof.
  pose proof (non_data_lines_are_ignored Json.parse Json.truthy
    ["da"] [] "da" ("ta: [2]" +:+ Sse.nl) ["data: [2]"] "event: message"
    Sse.nl ["data: [4]" +:+ Sse.nl +:+ Sse.nl]
    eq_refl eq_refl ltac:(repeat constructor) eq_refl eq_refl
    ltac:(discriminate)) as H.
  unfold Sample.streamAgent. etransitivity; [exact H|]. reflexivity.
Defined.

(** ** The trace detail viewer *)

Section TraceViewFacts.

Import Trace TraceView.

Implicit Types (spans : list UITraceSpan) (t k : SpanWithChildren).
Implicit Types (e : gset string).



Lemma register_last spans (m0 : gmap string node) (k : string) :
  foldl register m0 spans !! k
  = match registered spans k with
    | Some s => Some {| span := s; children := [] |}
    | None => m0 !! k
    end.
Proof.
  unfold registered. revert m0.
  induction spans as [|s spans IH]; intros m0; [done|].
  simpl. rewrite IH. unfold register.
  destruct (decide (id s = k)) as [E|E].
  - rewrite filter_cons_True by done. rewrite last_cons.
    destruct (last (filter _ spans)); [done|].
    by rewrite <- E, lookup_insert_eq.
  - rewrite filter_cons_False by done.
    destruct (last (filter _ spans)); [done|].
    by rewrite lookup_insert_ne.
Qed.

(** X17.  Ids that collide: in a trace whose spans have no [parent_id],
    the forest has one root per span of the input, in input order, but
    every root shows the last span of the input with that id; a span whose
    id is used again later in the list is not shown. *)
Theorem colliding_ids_show_the_last_span spans :
  (∀ s, s ∈ spans → parent_id s = None) →
  buildSpanHierarchy spans
  = Some ((λ s, Node (default s (registered spans (id s))) []) <$> spans).
Proof.
  intros Hp. unfold buildSpanHierarchy, build.
  destruct (link_fold spans (foldl register ∅ spans) []) as (m & -> & Hm).
  assert (∀ (m0 : gmap string node) (l : list UITraceSpan) (P : Prop),
            (∀ s, s ∈ l → s ∈ spans) →
            filter (λ s, parent_in m0 s = None) l = l) as Hall.
  { intros m0 l _ Hl. induction l as [|x l IH]; [done|].
    rewrite filter_cons_True.
    - f_equal. apply IH. intros s Hs. apply Hl. by right.
    - unfold parent_in. rewrite (Hp x); [done|]. apply Hl. by left. }
  simpl. rewrite (Hall _ _ True) by done.
  apply mapM_Some, Forall2_fmap, Forall_Forall2_diag, Forall_forall.
  intros s Hs. simpl.
  destruct spans as [|s0 spans']; [by apply elem_of_nil in Hs|].
  remember (s0 :: spans') as spans eqn:Es.
  rewrite Es at 1. simpl. rewrite Hm, register_last.
  assert (is_Some (registered spans (id s))) as [w Hw].
  { unfold registered.
    destruct (filter (λ x, id x = id s) spans) as [|x l] eqn:E.
    - assert (s ∈ filter (λ x, id x = id s) spans) as H
        by (by apply list_elem_of_filter).
      rewrite E in H. by apply elem_of_nil in H.
    - destruct (exists_last (l:=x :: l)) as (l' & y & ->); [done|].
      rewrite last_snoc. by eexists. }
  rewrite Hw. simpl.
  assert (filter (λ x, parent_in (foldl register ∅ spans) x = Some (id s))
            spans = []) as ->.
  { destruct (filter _ spans) as [|x l] eqn:E; [done|].
    assert (x ∈ filter (λ x, parent_in (foldl register ∅ spans) x
                             = Some (id s)) spans) as H
      by (rewrite E; left).
    apply list_elem_of_filter in H as [H Hx].
    unfold parent_in in H. by rewrite (Hp x Hx) in H. }
  done.
Qed.

(** X7.  [toggleSpanExpansion] flips the membership of the one id in the
    set and of no other; toggling the same id twice gives the set back. *)
Theorem toggle_span_expansion_flips_one_id e (spanId : string) :
  toggleSpanExpansion (toggleSpanExpansion e spanId) spanId = e
  ∧ (spanId ∈ toggleSpanExpansion e spanId ↔ spanId ∉ e)
  ∧ (∀ other, other ≠ spanId →
       other ∈ toggleSpanExpansion e spanId ↔ other ∈ e).
Proof.
  unfold toggleSpanExpansion.
  destruct (decide (spanId ∈ e)) as [Hin|Hout].
  - rewrite decide_False by set_solver. split; [|set_solver].
    apply set_eq. intros y. destruct (decide (y = spanId)); set_solver.
  - rewrite decide_True by set_solver. split; [|set_solver].
    apply set_eq. intros y. destruct (decide (y = spanId)); set_solver.
Qed.

(** Induction on a tree, with the property at hand for every child. *)
Lemma tree_ind (P : SpanWithChildren → Prop) :
  (∀ s ks, Forall P ks → P (Node s ks)) → ∀ t, P t.
Proof.
  intros H. fix IH 1. intros [s ks]. apply H.
  induction ks as [|k ks IHks]; constructor; [apply IH|apply IHks].
Qed.

Lemma nodes_self t : t ∈ nodes t.
Proof. destruct t. by left. Qed.

Lemma nodes_kid t k t' : k ∈ kids t → t' ∈ nodes k → t' ∈ nodes t.
Proof.
  destruct t as [s ks]. simpl. intros Hk Ht'. right.
  apply list_elem_of_bind. eauto.
Qed.

(** Every row is the row of a node: its span, whether it is open, and
    whether it has a chevron. *)
Lemma renderSpan_row e (level : nat) t r :
  r ∈ renderSpan e level t →
  ∃ t', t' ∈ nodes t ∧ row_span r = root t'
        ∧ row_open r = bool_decide (id (root t') ∈ e)
        ∧ row_chevron r = negb (Nat.eqb (length (kids t')) 0).
Proof.
  revert level. induction t as [s ks IH] using tree_ind. intros level.
  simpl. intros [->|Hr]%elem_of_cons.
  - exists (Node s ks). split; [by left|done].
  - apply list_elem_of_bind in Hr as (k & Hr & Hk).
    rewrite Forall_forall in IH.
    destruct (IH k Hk _ Hr) as (t' & Ht' & ?).
    exists t'. split; [|done]. right. apply list_elem_of_bind. eauto.
Qed.

(** The rows are the nodes, parents first. *)
Lemma renderSpan_spans e (level : nat) t :
  row_span <$> renderSpan e level t = root <$> nodes t.
Proof.
  revert level. induction t as [s ks IH] using tree_ind. intros level.
  simpl. f_equal. rewrite !fmap_bind_list.
  induction IH as [|k ks Hk _ IHks]; [done|].
  by rewrite !bind_cons, Hk, IHks.
Qed.

(** The level of a row counts the steps from its span up to the top of
    the tree. *)
Lemma renderSpan_level (R : relation UITraceSpan) e (level : nat) t r :
  (∀ t' k, t' ∈ nodes t → k ∈ kids t' → R (root k) (root t')) →
  r ∈ renderSpan e level t →
  ∃ n, row_level r = (level + n)%nat ∧ nsteps R n (row_span r) (root t).
Proof.
  revert level. induction t as [s ks IH] using tree_ind. intros level HR.
  simpl. intros [->|Hr]%elem_of_cons.
  - exists 0%nat. simpl. split; [lia|constructor].
  - apply list_elem_of_bind in Hr as (k & Hr & Hk).
    rewrite Forall_forall in IH.
    destruct (IH k Hk (S level)) as (n & Hn & Hsteps); [|done|].
    { intros t' k' Ht' Hk'. apply HR; [|done].
      by apply (nodes_kid (Node s ks) k). }
    exists (S n). split; [lia|].
    eapply nsteps_r; [exact Hsteps|].
    apply (HR (Node s ks) k); [by left|done].
Qed.

(** The forest of spans with unique ids and no cycle of parents. *)
Lemma built_forest spans :
  NoDup (id <$> spans) → acyclic spans →
  ∃ forest,
    buildSpanHierarchy spans = Some forest
    ∧ root <$> forest = roots_of spans
    ∧ (∀ t, t ∈ forest_nodes forest →
         root t ∈ spans ∧ child_spans t = kids_of spans (root t))
    ∧ flatten forest ≡ₚ spans.
Proof.
  intros Hnd Hac.
  destruct (build_spec spans Hnd) as (m & Hb & Hm & _).
  unfold buildSpanHierarchy. rewrite Hb.
  assert (∀ r, r ∈ roots_of spans
               ↔ r ∈ spans ∧ parent_key spans r = None) as Hroot.
  { intros r. unfold roots_of. rewrite list_elem_of_filter. tauto. }
  assert (is_Some (mapM (reify (length spans) m) (id <$> roots_of spans)))
    as [forest E].
  { apply mapM_is_Some, Forall_fmap, Forall_forall. intros r [Hr _]%Hroot.
    apply (reify_fuel spans Hac m Hm (length spans) r []);
      [done|apply NoDup_singleton|by intros ? ?%elem_of_nil|simpl; lia]. }
  exists forest. split; [done|].
  apply mapM_Some, Forall2_fmap_l in E.
  assert (Forall2 (hierarchy_below spans) (roots_of spans) forest) as H2.
  { eapply Forall2_impl_elem; [exact E|]. intros r t [Hr _]%Hroot Hrt.
    by eapply (reify_tree spans Hnd Hac m Hm). }
  clear E.
  assert (root <$> forest = roots_of spans) as Hroots.
  { apply Forall2_root. eapply Forall2_impl; [exact H2|].
    by intros r t (? & _). }
  assert (NoDup spans) as Hnds by (by eapply NoDup_spans).
  assert (∀ t, t ∈ forest →
               ∃ r, r ∈ spans ∧ parent_key spans r = None
                    ∧ hierarchy_below spans r t) as Ht.
  { intros t Hin. destruct (Forall2_elem_r _ _ _ _ H2 Hin) as (r & Hr & ?).
    apply Hroot in Hr as [? ?]. eauto. }
  split; [done|]. split.
  { intros t' (t & Ht' & (r & _ & _ & (_ & Hk & _))%Ht)%list_elem_of_bind.
    by apply Hk. }
  unfold flatten, forest_nodes. rewrite fmap_bind_list.
  apply NoDup_Permutation; [|done|].
  - apply NoDup_bind.
    + intros t1 t2 y Ht1 Ht2 Hy1 Hy2.
      destruct (Ht t1 Ht1) as (r1 & _ & N1 & (R1 & _ & Hr1 & _)).
      destruct (Ht t2 Ht2) as (r2 & _ & N2 & (R2 & _ & Hr2 & _)).
      apply (fmap_NoDup_inj root forest); try done.
      { rewrite Hroots. by apply NoDup_filter. }
      rewrite R1, R2. apply (root_unique spans Hnd y r1 r2); try done.
      * by apply Hr1.
      * by apply Hr2.
    + intros t (r & _ & _ & Hr)%Ht. apply Hr.
    + apply (NoDup_fmap_1 root). rewrite Hroots. by apply NoDup_filter.
  - intros x. rewrite list_elem_of_bind. split.
    + intros (t & Hx & (r & Hr & _ & (_ & _ & Hd & _))%Ht).
      eapply rtc_attached_in; [exact Hr|]. by apply Hd.
    + intros Hx.
      destruct (root_ancestor spans Hac x Hx) as (r & Hxr & Hr & Nr).
      destruct (Forall2_elem_l _ _ _ r H2) as (t & Htin & Hrt);
        [by apply Hroot|].
      exists t. split; [|done]. by apply Hrt.
Qed.

(** X8.  [renderSpanTree] on the hierarchy of spans with unique ids and no
    cycle of parents, from level 0: one row for every span of the input;
    the level of a row, which sets its left margin to 20 pixels per level,
    is the number of steps from its span up the parents to a root; the row
    is open when the id of its span is in the set of expanded spans, and
    it has a chevron when some span of the input is attached to its
    span. *)
Theorem rendered_rows_of_the_hierarchy spans e :
  NoDup (id <$> spans) → acyclic spans →
  ∃ forest,
    buildSpanHierarchy spans = Some forest
    ∧ row_span <$> renderSpanTree e forest 0 ≡ₚ spans
    ∧ ∀ r, r ∈ renderSpanTree e forest 0 →
        (∃ top, parent_key spans top = None
                ∧ nsteps (parent_of spans) (row_level r) (row_span r) top)
        ∧ marginLeft r = (20 * Z.of_nat (row_level r))%Z
        ∧ row_open r = bool_decide (id (row_span r) ∈ e)
        ∧ row_chevron r
          = negb (Nat.eqb (length (kids_of spans (row_span r))) 0).
Proof.
  intros Hnd Hac.
  destruct (built_forest spans Hnd Hac) as (forest & E & Hroots & Hn & Hp).
  exists forest. split; [done|]. split.
  { rewrite <- Hp. unfold renderSpanTree, flatten, forest_nodes.
    rewrite !fmap_bind_list.
    erewrite list_bind_ext; [reflexivity| |done].
    intros t. apply renderSpan_spans. }
  intros r (t & Hr & Ht)%list_elem_of_bind.
  assert (∀ t', t' ∈ nodes t → t' ∈ forest_nodes forest) as Hsub.
  { intros t' Ht'. apply list_elem_of_bind. eauto. }
  split; [|split; [unfold marginLeft; lia|]].
  - exists (root t). split.
    + assert (root t ∈ roots_of spans) as Hrt.
      { rewrite <- Hroots. by apply list_elem_of_fmap_2. }
      by apply list_elem_of_filter in Hrt as [? _].
    + destruct (renderSpan_level (parent_of spans) e 0 t r) as (n & -> & Hs);
        [|done|done].
      intros t' k Ht' Hk. destruct (Hn t' (Hsub t' Ht')) as [Hin Hc].
      assert (root k ∈ kids_of spans (root t')) as Hkc.
      { rewrite <- Hc. by apply list_elem_of_fmap_2. }
      apply (elem_of_kids spans) in Hkc; [|done].
      by apply (attached_parent_of spans).
  - destruct (renderSpan_row e 0 t r Hr) as (t' & Ht' & -> & -> & ->).
    split; [done|]. destruct (Hn t' (Hsub t' Ht')) as [_ <-].
    unfold child_spans. by rewrite length_fmap.
Qed.

End TraceViewFacts.


Lemma rendered_rows_of_the_hierarchy_witness :
  ∃ forest,
    Trace.buildSpanHierarchy Sample.five_spans = Some forest
    ∧ TraceView.row_span <$> TraceView.renderSpanTree {["a"]} forest 0
      ≡ₚ Sample.five_spans.
Proof.
  destruct (rendered_rows_of_the_hierarchy Sample.five_spans {["a"]})
    as (forest & E & H & _).
  - by apply (bool_decide_unpack _).
  - apply five_spans_acyclic.
  - by exists forest.
Defined.

(** ** Pages: the buttons, the range shown, sequences of clicks *)

Section PageFacts.

Import Pagination.
Local Open Scope Z_scope.

(** X9.  On the traces screen a page button is disabled exactly when its
    handler would leave the pagination state as it is: a click on an
    enabled button always moves to another offset. *)
Theorem traces_button_disabled_iff_handler_is_noop (p : state) :
  0 < limit p → 0 ≤ offset p →
  (TracesScreen.prevDisabled p = true ↔ TracesScreen.handlePrevPage p = p)
  ∧ (TracesScreen.nextDisabled p = true ↔ TracesScreen.handleNextPage p = p)
  ∧ (TracesScreen.prevDisabled p = false →
     offset (TracesScreen.handlePrevPage p) < offset p)
  ∧ (TracesScreen.nextDisabled p = false →
     offset p < offset (TracesScreen.handleNextPage p)).
Proof.
  intros Hl Ho. destruct p as [l o t]. simpl in *.
  unfold TracesScreen.prevDisabled, TracesScreen.nextDisabled,
    TracesScreen.handlePrevPage, TracesScreen.handleNextPage. simpl.
  destruct (Z.ltb_spec 0 o), (Z.ltb_spec (o + l) t),
    (Z.eqb_spec o 0), (Z.leb_spec t (o + l)); simpl;
    repeat split; try done; try lia; intros [= ?]; lia.
Qed.

(** X10.  The range of the line [Showing a to b of total]: on a page that
    holds traces ([offset < total]) it starts at [offset + 1], ends within
    the total, and counts as many traces as the page can hold,
    [min(limit, total - offset)]; with no trace on the page ([total <=
    offset], as with an empty list, or after the traces of the last page
    were deleted) both ends are [total]. *)
Theorem showing_range (p : state) :
  0 < limit p → 0 ≤ offset p → 0 ≤ total p →
  (offset p < total p →
     TracesView.showingFrom p = offset p + 1
     ∧ TracesView.showingFrom p ≤ TracesView.showingTo p ≤ total p
     ∧ TracesView.showingTo p - TracesView.showingFrom p + 1
       = Z.min (limit p) (total p - offset p))
  ∧ (total p ≤ offset p →
     TracesView.showingFrom p = total p ∧ TracesView.showingTo p = total p).
Proof.
  unfold TracesView.showingFrom, TracesView.showingTo. lia.
Qed.

Lemma in_range_page (L T o : Z) :
  0 < L → 0 ≤ T → PageRange.in_range L T o →
  1 ≤ currentPage o L ≤ Z.max (totalPages T L) 1.
Proof.
  intros Hl Ht (Ho & _ & Hr).
  pose proof (currentPage_bounds o L Hl) as Bc.
  pose proof (totalPages_bounds T L Hl) as Bt. nia.
Qed.

Lemma in_range_next (L T o : Z) :
  0 < L → PageRange.in_range L T o → o + L < T →
  PageRange.in_range L T (o + L).
Proof.
  intros Hl (Ho & Hm & _) H. unfold PageRange.in_range.
  rewrite mod_add_limit by done. lia.
Qed.

Lemma in_range_prev (L T o : Z) :
  0 < L → PageRange.in_range L T o →
  PageRange.in_range L T (Z.max 0 (o - L)).
Proof.
  intros Hl (Ho & Hm & Hr). unfold PageRange.in_range.
  rewrite mod_max_sub_limit by done. lia.
Qed.

(** One press on the traces screen keeps the offset in range, when the
    backend reports the same total. *)
Lemma traces_press_in_range {UITrace}
    (getTraces : Z → Z → option (list UITrace * Z)) (L T : Z)
    (b : TracesView.button) (s : TracesScreen.screen) :
  (∀ l o page t, getTraces l o = Some (page, t) → t = T) →
  0 < L →
  limit (TracesScreen.pagination s) = L →
  total (TracesScreen.pagination s) = T →
  PageRange.in_range L T (offset (TracesScreen.pagination s)) →
  let q := TracesScreen.pagination (TracesView.press getTraces b s) in
  limit q = L ∧ total q = T ∧ PageRange.in_range L T (offset q).
Proof.
  intros Hg Hl EL ET Hr. destruct s as [traces [l o t]]. simpl in *.
  subst l t. unfold TracesView.press, click.
  destruct (TracesView.disabled b _); [done|].
  assert (limit (TracesView.handler b {| limit := L; offset := o; total := T |})
          = L
          ∧ total (TracesView.handler b
                     {| limit := L; offset := o; total := T |}) = T
          ∧ PageRange.in_range L T
              (offset (TracesView.handler b
                         {| limit := L; offset := o; total := T |})))
    as (E1 & E2 & E3).
  { destruct b; simpl;
      unfold TracesScreen.handlePrevPage, TracesScreen.handleNextPage; simpl.
    - destruct (Z.ltb_spec 0 o); simpl; [|done].
      split; [done|]. split; [done|]. by apply in_range_prev.
    - destruct (Z.ltb_spec (o + L) T); simpl; [|done].
      split; [done|]. split; [done|]. by apply in_range_next. }
  unfold TracesScreen.after. simpl.
  destruct (decide _); [done|]. unfold TracesScreen.loadTraces. simpl.
  destruct (getTraces _ _) as [[page t]|] eqn:G; [|done].
  simpl. by rewrite (Hg _ _ _ _ G).
Qed.

(** X11.  On the traces screen, starting at offset 0 and with a backend
    that reports the same total at every load, no sequence of clicks on
    Previous and Next leaves the listed items: the offset stays a multiple
    of the limit, it is 0 or below the total, and the current page stays
    between 1 and the number of pages. *)
Theorem traces_pages_stay_in_range {UITrace}
    (getTraces : Z → Z → option (list UITrace * Z)) (T : Z)
    (bs : list TracesView.button) (s : TracesScreen.screen) :
  (∀ l o page t, getTraces l o = Some (page, t) → t = T) →
  0 < limit (TracesScreen.pagination s) → 0 ≤ T →
  total (TracesScreen.pagination s) = T →
  offset (TracesScreen.pagination s) = 0 →
  let q := TracesScreen.pagination (TracesView.presses getTraces bs s) in
  limit q = limit (TracesScreen.pagination s) ∧ total q = T
  ∧ PageRange.in_range (limit q) T (offset q)
  ∧ 1 ≤ currentPage (offset q) (limit q)
      ≤ Z.max (totalPages (total q) (limit q)) 1.
Proof.
  intros Hg Hl Ht ET Eo.
  assert (PageRange.in_range (limit (TracesScreen.pagination s)) T
            (offset (TracesScreen.pagination s))) as Hr.
  { rewrite Eo. unfold PageRange.in_range. rewrite Z.mod_0_l by lia. lia. }
  clear Eo. remember (limit (TracesScreen.pagination s)) as L eqn:EL.
  symmetry in EL. revert s EL ET Hr. unfold TracesView.presses.
  induction bs as [|b bs IH]; intros s EL ET Hr; simpl.
  - rewrite EL, ET. split; [done|]. split; [done|]. split; [done|].
    by apply in_range_page.
  - destruct (traces_press_in_range getTraces L T b s Hg Hl EL ET Hr)
      as (E1 & E2 & E3).
    by apply IH.
Qed.

(** One press on the memory screen keeps the offset in range, when the
    backend reports the same total. *)
Lemma memory_press_in_range {M C}
    (api : string → Z → Z
           → option (Memory.MemoryResponse (MemoryEntry:=M)
                       (ConversationInfo:=C)))
    (sel : option string) (L T : Z) (b : MemoryView.button)
    (s : MemoryScreen.screen (MemoryEntry:=M)) :
  (∀ c l o r, api c l o = Some r → Memory.total r = T) →
  0 < L → 0 ≤ T →
  MemoryScreen.messagesLimit s = L → MemoryScreen.messagesTotal s = T →
  PageRange.in_range L T (MemoryScreen.messagesOffset s) →
  let s' := MemoryView.press api sel b s in
  MemoryScreen.messagesLimit s' = L ∧ MemoryScreen.messagesTotal s' = T
  ∧ PageRange.in_range L T (MemoryScreen.messagesOffset s').
Proof.
  intros Hg Hl Ht EL ET Hr. destruct s as [ms ld t o l]. simpl in *.
  subst l t.
  set (s := {| MemoryScreen.messages := ms;
               MemoryScreen.messagesLoading := ld;
               MemoryScreen.messagesTotal := T;
               MemoryScreen.messagesOffset := o;
               MemoryScreen.messagesLimit := L |}).
  assert (MemoryScreen.messagesLimit (MemoryView.click b s) = L
          ∧ MemoryScreen.messagesTotal (MemoryView.click b s) = T
          ∧ PageRange.in_range L T
              (MemoryScreen.messagesOffset (MemoryView.click b s)))
    as (E1 & E2 & E3).
  { destruct b; simpl.
    - unfold MemoryScreen.clickPrev, click.
      destruct (MemoryScreen.prevDisabled s); [done|]. simpl.
      split; [done|]. split; [done|]. by apply in_range_prev.
    - unfold MemoryScreen.clickNext, click.
      destruct (MemoryScreen.nextDisabled s) eqn:D; [done|]. simpl.
      split; [done|]. split; [done|].
      apply in_range_next; [done..|].
      unfold MemoryScreen.nextDisabled, MemoryScreen.totalPages,
        MemoryScreen.currentPage in D. simpl in D.
      apply orb_false_iff in D as [[D1 D2]%orb_false_iff _].
      apply negb_false_iff, Z.ltb_lt in D1. apply Z.eqb_neq in D2.
      pose proof (in_range_page L T o Hl Ht Hr) as Bp.
      pose proof (totalPages_bounds T L Hl) as Bt.
      destruct Hr as (Ho & Hm & _).
      pose proof (Z.div_mod o L ltac:(lia)) as Eo. rewrite Hm in Eo.
      unfold currentPage in *. nia. }
  unfold MemoryView.press.
  destruct (decide _); [done|]. unfold MemoryView.loadMessages.
  destruct sel as [c|]; [|done]. destruct (String.eqb c ""); [done|].
  rewrite E1. destruct (api c L _) as [r|] eqn:G; [|done].
  destruct (Memory.selected r _ _); [|done]. simpl.
  by rewrite (Hg _ _ _ _ G).
Qed.

(** X12.  On the memory screen, starting at offset 0 and with a backend
    that reports the same total at every load, no sequence of clicks on
    the page buttons leaves the listed messages, although the next-page
    handler adds the limit without a test: the buttons are disabled where
    it matters.  The offset stays a multiple of the limit, it is 0 or
    below the total, and [Page X of Y] has X between 1 and Y. *)
Theorem memory_pages_stay_in_range {M C}
    (api : string → Z → Z
           → option (Memory.MemoryResponse (MemoryEntry:=M)
                       (ConversationInfo:=C)))
    (sel : option string) (T : Z) (bs : list MemoryView.button)
    (s : MemoryScreen.screen (MemoryEntry:=M)) :
  (∀ c l o r, api c l o = Some r → Memory.total r = T) →
  0 < MemoryScreen.messagesLimit s → 0 ≤ T →
  MemoryScreen.messagesTotal s = T → MemoryScreen.messagesOffset s = 0 →
  let s' := MemoryView.presses api sel bs s in
  MemoryScreen.messagesLimit s' = MemoryScreen.messagesLimit s
  ∧ MemoryScreen.messagesTotal s' = T
  ∧ PageRange.in_range (MemoryScreen.messagesLimit s') T
      (MemoryScreen.messagesOffset s')
  ∧ 1 ≤ MemoryScreen.currentPage s'
      ≤ Z.max (MemoryScreen.totalPages s') 1.
Proof.
  intros Hg Hl Ht ET Eo.
  assert (PageRange.in_range (MemoryScreen.messagesLimit s) T
            (MemoryScreen.messagesOffset s)) as Hr.
  { rewrite Eo. unfold PageRange.in_range. rewrite Z.mod_0_l by lia. lia. }
  clear Eo. remember (MemoryScreen.messagesLimit s) as L eqn:EL.
  symmetry in EL. revert s EL ET Hr. unfold MemoryView.presses.
  induction bs as [|b bs IH]; intros s EL ET Hr; simpl.
  - unfold MemoryScreen.currentPage, MemoryScreen.totalPages.
    rewrite EL, ET. split; [done|]. split; [done|]. split; [done|].
    by apply in_range_page.
  - destruct (memory_press_in_range api sel L T b s Hg Hl Ht EL ET Hr)
      as (E1 & E2 & E3).
    by apply IH.
Qed.

(** X13.  The pagination bar of the conversation detail is rendered
    exactly when there are more messages than one page holds (and the view
    is not replaced by the spinner); and when it is rendered and nothing
    is loading, Previous and Next are never both disabled. *)
Theorem conversation_pagination_bar {M}
    (p : ConversationDetail.props (MemoryEntry:=M)) :
  0 < ConversationDetail.limit p → 0 ≤ ConversationDetail.total p →
  (ConversationDetail.paginationShown p = true
   ↔ ConversationDetail.limit p < ConversationDetail.total p
     ∧ (ConversationDetail.loading p = false
        ∨ ConversationDetail.messages p ≠ []))
  ∧ (ConversationDetail.paginationShown p = true →
     ConversationDetail.loading p = false →
     ConversationDetail.prevDisabled p = false
     ∨ ConversationDetail.nextDisabled p = false).
Proof.
  intros Hl Ht.
  pose proof (totalPages_bounds (ConversationDetail.total p)
                (ConversationDetail.limit p) Hl) as Bt.
  unfold ConversationDetail.paginationShown, ConversationDetail.placeholder,
    ConversationDetail.prevDisabled, ConversationDetail.nextDisabled,
    ConversationDetail.totalPages, ConversationDetail.currentPage.
  split.
  - rewrite andb_true_iff, negb_true_iff, andb_false_iff, Z.ltb_lt,
      Nat.eqb_neq.
    assert (1 < totalPages (ConversationDetail.total p)
                  (ConversationDetail.limit p)
            ↔ ConversationDetail.limit p < ConversationDetail.total p)
      as -> by nia.
    assert (length (ConversationDetail.messages p) ≠ 0%nat
            ↔ ConversationDetail.messages p ≠ []) as ->
      by (by destruct (ConversationDetail.messages p)).
    tauto.
  - intros [_ H%Z.ltb_lt]%andb_true_iff ->. rewrite !orb_false_r.
    destruct (Z.eqb_spec (currentPage (ConversationDetail.offset p)
                            (ConversationDetail.limit p)) 1) as [E|];
      [|by left].
    right. apply Z.eqb_neq. lia.
Qed.

End PageFacts.

(** ** The memory browser: Load More and the reload that follows *)

Section BrowserFacts.

Import Pagination.
Local Open Scope Z_scope.

Context {M C : Type}.

#[local] Abbreviation Response :=
  (Memory.MemoryResponse (MemoryEntry:=M) (ConversationInfo:=C)).
#[local] Abbreviation paged := (MemoryBrowser.paged (ConversationInfo:=C)).

Implicit Types (s : Memory.browser (MemoryEntry:=M)) (db : list M).

(** A Load More that succeeds, and the reload that the change of offset
    triggers, answered in mode [messages]. *)
Lemma loadMoreAndEffect_reload
    (answer reload : Z → Z → option Response) s r1 r2 (ms : list M) :
  limit (Memory.pagination s) ≠ 0 →
  answer (limit (Memory.pagination s))
    (offset (Memory.pagination s) + limit (Memory.pagination s)) = Some r1 →
  reload (limit (Memory.pagination s))
    (offset (Memory.pagination s) + limit (Memory.pagination s)) = Some r2 →
  Memory.selected r2 "messages" (Memory.messages r2) = Some ms →
  MemoryBrowser.loadMoreAndEffect true answer reload s
  = {| Memory.browser_entries := ms;
       Memory.pagination :=
         {| limit := limit (Memory.pagination s);
            offset := offset (Memory.pagination s)
                      + limit (Memory.pagination s);
            total := Memory.total r2 |};
       Memory.loading := false |}.
Proof.
  intros Hl E1 E2 Hs.
  unfold MemoryBrowser.loadMoreAndEffect, Memory.loadMore. rewrite E1. simpl.
  rewrite decide_False by lia.
  unfold Memory.loadMemory. simpl. rewrite E2.
  unfold Memory.loadMemory_entries. by rewrite Hs.
Qed.

Lemma paged_click db (L : Z) s :
  0 < L → MemoryBrowser.shows_page db L s →
  MemoryBrowser.shows_page db L
    (click (Memory.loading s)
       (MemoryBrowser.loadMoreAndEffect true (paged db) (paged db)) s)
  ∧ offset (Memory.pagination
              (click (Memory.loading s)
                 (MemoryBrowser.loadMoreAndEffect true (paged db) (paged db))
                 s))
    = offset (Memory.pagination s) + L.
Proof.
  intros Hl (EL & Ho & ET & Eld & Ee). rewrite Eld. unfold click.
  erewrite loadMoreAndEffect_reload; [|lia|reflexivity|reflexivity|reflexivity].
  unfold MemoryBrowser.shows_page. simpl. rewrite EL.
  repeat split; lia.
Qed.

(** The page at an offset below the length of the list is not empty. *)
Lemma page_not_empty db (L : Z) s :
  0 < L → MemoryBrowser.shows_page db L s →
  offset (Memory.pagination s) + L < Z.of_nat (length db) →
  length (Memory.browser_entries s) ≠ 0%nat.
Proof.
  intros Hl (_ & Ho & _ & _ & ->) H.
  rewrite length_take, length_drop. lia.
Qed.

Lemma paged_shown db (L : Z) (q : string) (rs : list M) s :
  0 < L → MemoryBrowser.trim q = "" → MemoryBrowser.shows_page db L s →
  MemoryBrowser.loadMoreShown q rs s = true
  ↔ offset (Memory.pagination s) + L < Z.of_nat (length db).
Proof.
  intros Hl Hq Hs. pose proof Hs as (EL & Ho & ET & _ & _).
  unfold MemoryBrowser.loadMoreShown, MemoryBrowser.displayEntries.
  rewrite Hq, EL, ET. simpl.
  rewrite andb_true_iff, negb_true_iff, Nat.eqb_neq, Z.ltb_lt.
  split; [tauto|]. intros H. split; [|done].
  by apply (page_not_empty db L).
Qed.

Lemma paged_clicks db (L : Z) (q : string) (rs : list M) (clicks : nat) s :
  0 < L → MemoryBrowser.trim q = "" → MemoryBrowser.shows_page db L s →
  MemoryBrowser.shows_page db L
    (MemoryBrowser.loadMoreWhileShown (paged db) q rs clicks s)
  ∧ (Z.of_nat (length db) - offset (Memory.pagination s) ≤ Z.of_nat clicks →
     MemoryBrowser.loadMoreShown q rs
       (MemoryBrowser.loadMoreWhileShown (paged db) q rs clicks s) = false).
Proof.
  intros Hl Hq. revert s.
  induction clicks as [|clicks IH]; intros s Hs; simpl.
  - split; [done|]. intros H. apply not_true_is_false.
    rewrite (paged_shown db L q rs s Hl Hq Hs). lia.
  - destruct (MemoryBrowser.loadMoreShown q rs s) eqn:Sh; [|done].
    destruct (paged_click db L s Hl Hs) as [Hs' Eo].
    destruct (IH _ Hs') as [H1 H2]. split; [done|].
    intros H. apply H2. lia.
Qed.

(** X14.  [loadMore] appends the page it fetched and advances the offset;
    the offset being a dependency of [loadMemory], the effect on
    [open, loadMemory] then runs [loadMemory] at the new offset, and a
    response in mode [messages] to that reload replaces the appended list
    by the reloaded page alone. *)
Theorem load_more_list_is_replaced_by_the_reload
    (answer reload : Z → Z → option Response) s r1 r2 (ms : list M) :
  limit (Memory.pagination s) ≠ 0 →
  answer (limit (Memory.pagination s))
    (offset (Memory.pagination s) + limit (Memory.pagination s)) = Some r1 →
  reload (limit (Memory.pagination s))
    (offset (Memory.pagination s) + limit (Memory.pagination s)) = Some r2 →
  Memory.selected r2 "messages" (Memory.messages r2) = Some ms →
  Memory.browser_entries (Memory.loadMore answer s)
  = Memory.browser_entries s ++ Memory.loadMore_newEntries r1
  ∧ Memory.browser_entries
      (MemoryBrowser.loadMoreAndEffect true answer reload s) = ms
  ∧ offset (Memory.pagination
              (MemoryBrowser.loadMoreAndEffect true answer reload s))
    = offset (Memory.pagination s) + limit (Memory.pagination s)
  ∧ total (Memory.pagination
             (MemoryBrowser.loadMoreAndEffect true answer reload s))
    = Memory.total r2.
Proof.
  intros Hl E1 E2 Hs.
  rewrite (loadMoreAndEffect_reload answer reload s r1 r2 ms Hl E1 E2 Hs).
  split; [|done]. unfold Memory.loadMore. by rewrite E1.
Qed.

(** X15.  Against a backend that serves the pages of a fixed list, with
    no search text typed, the open browser, after its first load and any
    number of clicks on Load More, holds exactly the one page at its
    current offset: never more entries than the limit, whatever was loaded
    before.  Load More is rendered exactly when the count it shows as
    remaining is positive (the list is then not empty); after enough
    clicks it is no longer rendered and the entries are the last page.
    In no state is it rendered while a search text is typed or over an
    empty list. *)
Theorem load_more_shows_one_page_at_a_time db (L : Z) (q : string)
    (rs e0 : list M) (t0 : Z) (b : bool) (clicks : nat) :
  0 < L → MemoryBrowser.trim q = "" →
  let s0 :=
    Memory.loadMemory (paged db)
      {| Memory.browser_entries := e0;
         Memory.pagination := {| limit := L; offset := 0; total := t0 |};
         Memory.loading := b |} in
  let s := MemoryBrowser.loadMoreWhileShown (paged db) q rs clicks s0 in
  Memory.browser_entries s
  = take (Z.to_nat L) (drop (Z.to_nat (offset (Memory.pagination s))) db)
  ∧ (length (Memory.browser_entries s) ≤ Z.to_nat L)%nat
  ∧ (MemoryBrowser.loadMoreShown q rs s = true
     ↔ 0 < MemoryBrowser.remaining s)
  ∧ ((length db ≤ clicks)%nat →
     MemoryBrowser.loadMoreShown q rs s = false
     ∧ Memory.browser_entries s
       = drop (Z.to_nat (offset (Memory.pagination s))) db)
  ∧ (∀ q' rs' (s' : Memory.browser (MemoryEntry:=M)),
       MemoryBrowser.trim q' ≠ ""
       ∨ MemoryBrowser.displayEntries q' rs' s' = [] →
       MemoryBrowser.loadMoreShown q' rs' s' = false).
Proof.
  intros Hl Hq s0 s.
  assert (∀ q' rs' (s' : Memory.browser (MemoryEntry:=M)),
            MemoryBrowser.trim q' ≠ ""
            ∨ MemoryBrowser.displayEntries q' rs' s' = [] →
            MemoryBrowser.loadMoreShown q' rs' s' = false) as Hnot.
  { intros q' rs' s' [H|H]; unfold MemoryBrowser.loadMoreShown.
    - apply String.eqb_neq in H. rewrite H. by rewrite andb_false_r.
    - by rewrite H. }
  assert (MemoryBrowser.shows_page db L s0) as H0.
  { unfold MemoryBrowser.shows_page. by simpl. }
  destruct (paged_clicks db L q rs clicks s0 Hl Hq H0) as [Hs Hend].
  fold s in Hs, Hend.
  pose proof Hs as (EL & Ho & ET & _ & Ee).
  pose proof (paged_shown db L q rs s Hl Hq Hs) as Hsh.
  split; [done|]. split; [rewrite Ee, length_take; lia|].
  split; [rewrite Hsh; unfold MemoryBrowser.remaining; lia|].
  split; [|done]. intros Hc.
  assert (MemoryBrowser.loadMoreShown q rs s = false) as Hf.
  { apply Hend. simpl. lia. }
  split; [done|]. rewrite Ee. apply take_ge. rewrite length_drop.
  apply not_true_iff_false in Hf. rewrite Hsh in Hf. lia.
Qed.

End BrowserFacts.

(** ** Conversation ids *)

Lemma split_first (c : ascii) (l rest : string) :
  Sse.free c l = true →
  Js.split c (l +:+ String c rest) = l :: Js.split c rest.
Proof.
  unfold Js.split. induction l as [|x l IH]; intros H.
  - rewrite sapp_nil. simpl. rewrite Ascii.eqb_refl.
    by destruct (Js.split_aux c rest).
  - simpl in H. apply andb_true_iff in H as [Hx Hl].
    rewrite sapp_cons. simpl. specialize (IH Hl).
    destruct (Js.split_aux c (l +:+ String c rest)) as [h t].
    apply negb_true_iff in Hx. rewrite Hx. by injection IH as -> ->.
Qed.

Lemma split_cons_sep (c : ascii) (s : string) :
  ∃ h t, Js.split c s = h :: t.
Proof. unfold Js.split. destruct (Js.split_aux c s); eauto. Qed.

(** Joining the pieces with the separator gives the text back. *)
Lemma join_split (s : string) :
  MemoryView.join ":" (Js.split MemoryView.colon s) = s.
Proof.
  unfold Js.split. induction s as [|c s IH]; [done|]. simpl.
  destruct (Js.split_aux MemoryView.colon s) as [h t].
  destruct (Ascii.eqb_spec c MemoryView.colon) as [->|_].
  - change (MemoryView.join ":" ("" :: h :: t))
      with ("" +:+ ":" +:+ MemoryView.join ":" (h :: t)).
    by rewrite IH.
  - destruct t as [|x t]; simpl in *; [by rewrite IH|].
    by rewrite sapp_cons, IH.
Qed.

(** X16.  [getCleanConversationId] removes what precedes the first colon,
    and that colon: for an organisation prefix without a colon, the id
    [org:rest] is shown as [rest], whatever colons [rest] holds; and an id
    without a colon is shown as it is. *)
Theorem clean_conversation_id_strips_the_prefix (org rest : string) :
  Sse.free MemoryView.colon org = true →
  MemoryView.getCleanConversationId (org +:+ ":" +:+ rest) = rest
  ∧ MemoryView.getCleanConversationId org = org.
Proof.
  intros H. unfold MemoryView.getCleanConversationId. split.
  - change (":" +:+ rest) with (String MemoryView.colon rest).
    rewrite (split_first _ _ _ H).
    pose proof (join_split rest) as J.
    destruct (split_cons_sep MemoryView.colon rest) as (h & t & E).
    rewrite E in *. exact J.
  - unfold Js.split. by rewrite (split_aux_no_sep _ _ H).
Qed.

Lemma clean_conversation_id_strips_the_prefix_witness :
  MemoryView.getCleanConversationId ("default-org" +:+ ":" +:+ "conv:123")
  = "conv:123".
Proof.
  exact (proj1 (clean_conversation_id_strips_the_prefix
                  "default-org" "conv:123" eq_refl)).
Defined.

(** ** The further facts on sample inputs *)

Lemma traces_button_disabled_iff_handler_is_noop_witness :
  (25 < Pagination.offset
          (TracesScreen.handleNextPage
             {| Pagination.limit := 25; Pagination.offset := 25;
                Pagination.total := 60 |}))%Z.
Proof.
  destruct (traces_button_disabled_iff_handler_is_noop
              {| Pagination.limit := 25; Pagination.offset := 25;
                 Pagination.total := 60 |}
              ltac:(simpl; lia) ltac:(simpl; lia)) as (_ & _ & _ & H).
  exact (H eq_refl).
Defined.

Lemma showing_range_witness :
  (TracesView.showingTo
     {| Pagination.limit := 25; Pagination.offset := 50;
        Pagination.total := 60 |}
   - TracesView.showingFrom
       {| Pagination.limit := 25; Pagination.offset := 50;
          Pagination.total := 60 |} + 1 = 10)%Z.
Proof.
  destruct (showing_range
              {| Pagination.limit := 25; Pagination.offset := 50;
                 Pagination.total := 60 |}
              ltac:(simpl; lia) ltac:(simpl; lia) ltac:(simpl; lia))
    as [H _].
  destruct (H ltac:(simpl; lia)) as (_ & _ & E). exact E.
Defined.

Lemma traces_pages_stay_in_range_witness :
  (1 ≤ Pagination.currentPage
         (Pagination.offset
            (TracesScreen.pagination
               (TracesView.presses SampleView.traces_backend
                  [TracesView.Next; TracesView.Next; TracesView.Next;
                   TracesView.Previous] SampleView.traces_start)))
         25 ≤ 3)%Z.
Proof.
  destruct (traces_pages_stay_in_range SampleView.traces_backend 60
              [TracesView.Next; TracesView.Next; TracesView.Next;
               TracesView.Previous] SampleView.traces_start)
    as (_ & _ & _ & H).
  - by intros l o page t [= _ <-].
  - simpl. lia.
  - lia.
  - reflexivity.
  - reflexivity.
  - exact H.
Defined.

Lemma memory_pages_stay_in_range_witness :
  (1 ≤ MemoryScreen.currentPage
         (MemoryView.presses SampleView.messages_api (Some "default")
            [MemoryView.Next; MemoryView.Next; MemoryView.Next;
             MemoryView.Previous] SampleView.memory_start) ≤ 3)%Z.
Proof.
  destruct (memory_pages_stay_in_range SampleView.messages_api
              (Some "default") 120
              [MemoryView.Next; MemoryView.Next; MemoryView.Next;
               MemoryView.Previous] SampleView.memory_start)
    as (_ & _ & _ & H).
  - by intros c l o r [= <-].
  - simpl. lia.
  - lia.
  - reflexivity.
  - reflexivity.
  - exact H.
Defined.

Lemma conversation_pagination_bar_witness :
  ConversationDetail.prevDisabled SampleView.detail = false
  ∨ ConversationDetail.nextDisabled SampleView.detail = false.
Proof.
  destruct (conversation_pagination_bar SampleView.detail
              ltac:(simpl; lia) ltac:(simpl; lia)) as [_ H].
  exact (H eq_refl eq_refl).
Defined.

Lemma load_more_list_is_replaced_by_the_reload_witness :
  Memory.browser_entries
    (Memory.loadMore SampleView.five_entries SampleView.browser_start)
  = [0; 1; 2; 3]%nat
  ∧ Memory.browser_entries
      (MemoryBrowser.loadMoreAndEffect true SampleView.five_entries
         SampleView.five_entries SampleView.browser_start)
    = [2; 3]%nat.
Proof.
  destruct (load_more_list_is_replaced_by_the_reload
              SampleView.five_entries SampleView.five_entries
              SampleView.browser_start _ _ [2; 3]%nat
              ltac:(simpl; lia) eq_refl eq_refl eq_refl) as (H1 & H2 & _).
  split; [exact H1|exact H2].
Defined.

Lemma load_more_shows_one_page_at_a_time_witness :
  (length
     (Memory.browser_entries
        (MemoryBrowser.loadMoreWhileShown SampleView.five_entries "  " [] 5
           (Memory.loadMemory SampleView.five_entries
              SampleView.browser_start))) ≤ 2)%nat.
Proof.
  destruct (load_more_shows_one_page_at_a_time (C:=nat) (seq 0 5) 2 "  " []
              [0; 1]%nat 5 false 5 ltac:(lia) eq_refl)
    as (_ & H & _ & _ & _).
  exact H.
Defined.

Lemma colliding_ids_show_the_last_span_witness :
  Trace.buildSpanHierarchy SampleView.colliding
  = Some [Trace.Node SampleView.second_a [];
          Trace.Node SampleView.second_a []].
Proof.
  etransitivity.
  - apply colliding_ids_show_the_last_span.
    apply Forall_forall. by repeat constructor.
  - by vm_compute.
Defined.
